(** * Resume parser: text normalisation, entity de-duplication, experience
      spans and similarity ranking

    A shallow embedding of [src/resume.py] (class [ResumeParser]).

    Python strings are sequences of Unicode code points; they are modelled as
    lists of code points ([N]).  The library functions the class calls are
    modelled as far as the program uses them: the backtracking matcher of
    [re] for the four patterns that occur, [str.strip], [set], [zip],
    [sorted], and the vocabulary construction of scikit-learn's
    [TfidfVectorizer].  What belongs to the runtime and is not in the
    repository (the Unicode tables beyond ASCII, the float64 kernels of
    scikit-learn, the spaCy pipeline, the PDF reader) is a parameter: a
    section variable, or a field of [Runtime] for the ranking. *)

From Stdlib Require Import NArith ZArith Ascii String Floats Uint63.
From stdpp Require Import gmap list strings sorting pretty.

Local Open Scope N_scope.

(** ** Code points *)

Abbreviation text := (list N).

(** A string literal of the development as a Python string. *)
Fixpoint codepoints (s : string) : text :=
  match s with
  | EmptyString => []
  | String a s' => N_of_ascii a :: codepoints s'
  end.

(** [str.isspace] for one character, which is also the class [\s] of [re] on
    [str] patterns (CPython's [_PyUnicode_IsWhitespace]). *)
Definition is_space (c : N) : bool :=
  ((9 <=? c) && (c <=? 13)) || ((28 <=? c) && (c <=? 32))
  || (c =? 133) || (c =? 160) || (c =? 5760)
  || ((8192 <=? c) && (c <=? 8202))
  || (c =? 8232) || (c =? 8233) || (c =? 8239) || (c =? 8287) || (c =? 12288).

Definition is_upper (c : N) : bool := (65 <=? c) && (c <=? 90).
Definition is_lower (c : N) : bool := (97 <=? c) && (c <=? 122).
Definition is_digit (c : N) : bool := (48 <=? c) && (c <=? 57).

Definition SPACE : N := 32.
Definition COMMA : N := 44.
Definition HYPHEN : N := 45.
Definition PERIOD : N := 46.
Definition EN_DASH : N := 8211.

(** [str.strip()] with no argument. *)
Fixpoint lstrip (s : text) : text :=
  match s with
  | c :: s' => if is_space c then lstrip s' else s
  | [] => []
  end.

Definition rstrip (s : text) : text := reverse (lstrip (reverse s)).

Definition strip (s : text) : text := rstrip (lstrip s).

(** ** The matcher of [re] *)

Module re.

(** The fragment of the pattern language that the program's patterns use.
    Repetition is only ever applied to a one-character class. *)
Inductive regex : Type :=
| Eps
| Chr (p : N → bool)
| Cat (r1 r2 : regex)
| Alt (r1 r2 : regex)
| Star (p : N → bool)
| Bnd (w : N → bool).

(** What remains to be matched: it receives the character before the
    current position and the rest of the input. *)
Definition cont : Type := option N → text → option text.

Definition accept : cont := λ _ rest, Some rest.

(** Greedy repetition: take as many as possible, give back one at a time. *)
Fixpoint star (p : N → bool) (k : cont) (prev : option N) (s : text)
  : option text :=
  match s with
  | c :: s' =>
      if p c then
        match star p k (Some c) s' with
        | Some rest => Some rest
        | None => k prev s
        end
      else k prev s
  | [] => k prev []
  end.

Definition word_at (w : N → bool) (o : option N) : bool :=
  match o with Some c => w c | None => false end.

(** Backtracking match with the priorities of [re]: the left branch of an
    alternation first, the longest repetition first. *)
Fixpoint m (r : regex) (k : cont) (prev : option N) (s : text) : option text :=
  match r with
  | Eps => k prev s
  | Chr p =>
      match s with
      | c :: s' => if p c then k (Some c) s' else None
      | [] => None
      end
  | Cat r1 r2 => m r1 (m r2 k) prev s
  | Alt r1 r2 =>
      match m r1 k prev s with
      | Some rest => Some rest
      | None => m r2 k prev s
      end
  | Star p => star p k prev s
  | Bnd w => if xorb (word_at w prev) (word_at w (head s)) then k prev s else None
  end.

(** The match that starts at the current position, as the number of
    characters it covers. *)
Definition match_at (r : regex) (prev : option N) (s : text) : option nat :=
  match m r accept prev s with
  | Some rest => Some (length s - length rest)%nat
  | None => None
  end.

(** The input cut into matches and the characters between them. *)
Inductive piece : Type :=
| Gap (c : N)
| Hit (w : text).

(** The scanning loop shared by [finditer], [findall] and [sub]: at each
    position try a match; after a match of [n] characters go on behind it
    ([skip] counts the characters of the current match still to pass). *)
Fixpoint scan (r : regex) (skip : nat) (prev : option N) (s : text) : list piece :=
  match s with
  | [] =>
      match skip, match_at r prev [] with
      | O, Some _ => [Hit []]
      | _, _ => []
      end
  | c :: s' =>
      match skip with
      | S n => scan r n (Some c) s'
      | O =>
          match match_at r prev s with
          | Some (S n) => Hit (take (S n) s) :: scan r n (Some c) s'
          | Some O => Hit [] :: Gap c :: scan r O (Some c) s'
          | None => Gap c :: scan r O (Some c) s'
          end
      end
  end.

Definition hits (ps : list piece) : list text :=
  omap (λ p, match p with Hit w => Some w | Gap _ => None end) ps.

(** [re.finditer(pattern, text)], each match as [match.group()]. *)
Definition finditer (r : regex) (s : text) : list text := hits (scan r 0 None s).

(** [pattern.findall(text)] for a pattern without groups. *)
Definition findall (r : regex) (s : text) : list text := finditer r s.

(** [re.sub(pattern, repl, text)] for a replacement without group
    references. *)
Definition sub (r : regex) (repl : text) (s : text) : text :=
  mjoin ((λ p, match p with Hit _ => repl | Gap c => [c] end) <$> scan r 0 None s).

Definition plus (p : N → bool) : regex := Cat (Chr p) (Star p).

Fixpoint seq (rs : list regex) : regex :=
  match rs with
  | [] => Eps
  | [r] => r
  | r :: rs' => Cat r (seq rs')
  end.

(** An alternation [r1|r2|...]; the empty one matches nothing. *)
Fixpoint alts (rs : list regex) : regex :=
  match rs with
  | [] => Chr (λ _, false)
  | [r] => r
  | r :: rs' => Alt r (alts rs')
  end.

End re.

(** ** [ResumeParser._clean_text] *)

(** The characters that the class [[^a-zA-Z0-9\s\.\-,]] does not match. *)
Definition kept (c : N) : bool :=
  is_lower c || is_upper c || is_digit c || is_space c
  || (c =? PERIOD) || (c =? HYPHEN) || (c =? COMMA).

(** [\s+] *)
Definition whitespace_run : re.regex := re.plus is_space.

(** [[^a-zA-Z0-9\s\.\-,]] *)
Definition forbidden : re.regex := re.Chr (λ c, negb (kept c)).

Definition _clean_text (t : text) : text :=
  let t := re.sub whitespace_run [SPACE] t in
  let t := re.sub forbidden [] t in
  strip t.

(** ** [ResumeParser._extract_experience] *)

(** ASCII lower case of a pattern character. *)
Definition ascii_lower (c : N) : N := if is_upper c then c + 32 else c.

(** Matching a literal letter under [(?i)]: the text character is compared
    after [_sre.unicode_tolower], and [i], [s] carry the extra equivalents
    that [sre_compile] adds (dotless i, long s); the capital I with dot and
    the Kelvin sign have lower case [i] and [k]. *)
Definition ichar (p c : N) : bool :=
  let l := ascii_lower p in
  (c =? l)
  || (is_lower l && (c =? l - 32))
  || ((l =? 105) && ((c =? 304) || (c =? 305)))
  || ((l =? 115) && (c =? 383))
  || ((l =? 107) && (c =? 8490)).

(** The class [[a-z]] under [(?i)]: the 52 ASCII letters and the four other
    characters that the documentation of [re] lists. *)
Definition iletter (c : N) : bool :=
  is_lower c || is_upper c || (c =? 304) || (c =? 305) || (c =? 383) || (c =? 8490).

(** A literal word under [(?i)]. *)
Definition ilit (w : string) : re.regex :=
  re.seq ((λ p, re.Chr (ichar p)) <$> codepoints w).

Definition months : list string :=
  ["Jan"; "Feb"; "Mar"; "Apr"; "May"; "Jun"; "Jul"; "Aug"; "Sep"; "Oct"; "Nov"; "Dec"]%string.

(** [(?:Jan|Feb|Mar|Apr|May|Jun|Jul|Aug|Sep|Oct|Nov|Dec)] *)
Definition month : re.regex := re.alts (ilit <$> months).

(** [[a-z\s\-,]] under [(?i)] *)
Definition date_filler (c : N) : bool :=
  iletter c || is_space c || (c =? HYPHEN) || (c =? COMMA).

(** [[\s\–\-]] *)
Definition range_sep (c : N) : bool :=
  is_space c || (c =? EN_DASH) || (c =? HYPHEN).

Section Experience.

(** The decimal digits beyond ASCII (general category Nd), a table of the
    interpreter. *)
Variable unicode_decimal : N → bool.

(** [\d] *)
Definition decimal (c : N) : bool :=
  if c <? 128 then is_digit c else unicode_decimal c.

(** [(?:Jan|...|Dec)[a-z\s\-,]*\d{4}] *)
Definition month_year : re.regex :=
  re.seq [month; re.Star date_filler;
          re.Chr decimal; re.Chr decimal; re.Chr decimal; re.Chr decimal].

(** The pattern of [_extract_experience], flag [(?i)]. *)
Definition experience_pattern : re.regex :=
  re.seq [month_year; re.plus range_sep; re.Alt (ilit "present") month_year].

Definition _extract_experience (t : text) : list text :=
  strip <$> re.finditer experience_pattern t.

End Experience.

(** ** [ResumeParser.parse_resume] *)

(** An entity of [doc.ents]: its [text] and its [label_]. *)
Record entity : Type := Entity { ent_text : text; label_ : string }.

(** The dictionary that [parse_resume] builds, with the key [name] that
    [main] adds to it. *)
Record resume : Type := Resume {
  skills : list text;
  education : list text;
  experience : list text;
  raw_text : text;
  name : option text
}.

(** A pattern of the entity ruler. *)
Record pattern : Type := Pattern { label : string; phrase : string }.

(** The table that [_add_custom_patterns] registers. *)
Definition patterns : list pattern :=
  [Pattern "DEGREE" "BS"; Pattern "DEGREE" "B.Sc"; Pattern "DEGREE" "Bachelors";
   Pattern "DEGREE" "Masters"; Pattern "DEGREE" "PhD";
   Pattern "SKILL" "Python"; Pattern "SKILL" "Machine Learning";
   Pattern "SKILL" "SQL"]%string.

(** [list(set(xs))]: the distinct elements, in an order the caller must not
    rely on. *)
Definition list_set (xs : list text) : list text :=
  elements (list_to_set xs : gset text).

(** [[ent.text for ent in ents if ent.label_ == l]] *)
Definition texts_labelled (l : string) (ents : list entity) : list text :=
  ent_text <$> filter (λ e, label_ e = l) ents.

Definition NEWLINE : N := 10.

Section Parse.

(** The document type of the PDF reader and the text of each of its pages
    ([page.extract_text()] of pdfplumber). *)
Variable pdf : Type.
Variable pages : pdf → list text.

(** The spaCy pipeline with the entity ruler loaded with a pattern table:
    the entities of [doc.ents] for a text. *)
Variable nlp : list pattern → text → list entity.

(** The decimal digits beyond ASCII, as in [_extract_experience]. *)
Variable unicode_decimal : N → bool.

(** ['\n'.join(...)] *)
Fixpoint join_lines (ps : list text) : text :=
  match ps with
  | [] => []
  | [p] => p
  | p :: ps' => p ++ NEWLINE :: join_lines ps'
  end.

Definition extract_text (pdf_path : pdf) : text := join_lines (pages pdf_path).

Definition parse_resume (pdf_path : pdf) : resume :=
  let t := extract_text pdf_path in
  let t := _clean_text t in
  let ents := nlp patterns t in
  {| skills := list_set (texts_labelled "SKILL" ents);
     education := list_set (texts_labelled "DEGREE" ents);
     experience := _extract_experience unicode_decimal t;
     raw_text := t;
     name := None |}.

End Parse.

Arguments extract_text {pdf} pages pdf_path.
Arguments parse_resume {pdf} pages nlp unicode_decimal pdf_path.

(** ** [sorted] *)

Section Sorted.

Context {A K : Type}.

(** The comparison [<] of the keys, the only one [list.sort] uses. *)
Variable lt : K → K → bool.
Variable key : A → K.

(** An element goes in front of the first one that is not smaller, so it
    stays in front of the elements it ties with. *)
Fixpoint insert_sorted (x : A) (l : list A) : list A :=
  match l with
  | [] => [x]
  | y :: l' => if lt (key y) (key x) then y :: insert_sorted x l' else x :: y :: l'
  end.

Fixpoint sort_ascending (l : list A) : list A :=
  match l with
  | [] => []
  | x :: l' => insert_sorted x (sort_ascending l')
  end.

(** [sorted(l, key=key, reverse=reverse)]: a stable ascending sort; with
    [reverse] the list is reversed before and after it, as [list.sort]
    does, which keeps ties in their original order. *)
Definition sorted (reverse : bool) (l : list A) : list A :=
  if reverse then list.reverse (sort_ascending (list.reverse l))
  else sort_ascending l.

End Sorted.

(** The order of [str]: lexicographic on code points. *)
Fixpoint text_ltb (a b : text) : bool :=
  match a, b with
  | _, [] => false
  | [], _ :: _ => true
  | x :: a', y :: b' => (x <? y) || ((x =? y) && text_ltb a' b')
  end.

(** ** Exceptions and the trace of a call *)

Inductive exn : Type :=
| ValueError (msg : string)
| PdfError (class_name : string).

Inductive outcome (A : Type) : Type :=
| Ok (a : A)
| Raise (e : exn).

Arguments Ok {A} a.
Arguments Raise {A} e.

(** A computation over a state [S] that may raise. *)
Definition M (S A : Type) : Type := S → S * outcome A.

#[global] Instance M_ret {S} : MRet (M S) := λ A a σ, (σ, Ok a).

#[global] Instance M_bind {S} : MBind (M S) := λ A B f c σ,
  match c σ with
  | (σ', Ok a) => f a σ'
  | (σ', Raise e) => (σ', Raise e)
  end.

Definition raise {S A} (e : exn) : M S A := λ σ, (σ, Raise e).

(** ** [ResumeParser.rank_resumes] *)

Definition is_ascii (c : N) : bool := c <? 128.

Definition UNDERSCORE : N := 95.

Definition empty_vocabulary : string :=
  "empty vocabulary; perhaps the documents only contain stop words".

(** What the ranking takes from the runtime.  [unicode_lower] and
    [unicode_word] are [str.lower] and the word characters beyond ASCII,
    tables of the interpreter.  [float64] stands for the numbers of numpy
    with their [<], and [tfidf_transform] and [cosine_similarity] for the
    kernels of scikit-learn on them: the tf-idf weighting and l2
    normalisation of a sparse row of term counts, and the cosine of two such
    rows. *)
Class Runtime : Type := {
  unicode_lower : text → text;
  unicode_word : N → bool;
  float64 : Type;
  float_lt : float64 → float64 → bool;
  tfidf_row : Type;
  tfidf_transform : list (nat * nat) → tfidf_row;
  cosine_similarity : tfidf_row → tfidf_row → float64
}.

Section Ranker.

Context {R : Runtime}.

(** [doc.lower()], the preprocessor of the vectorizer. *)
Definition str_lower (s : text) : text :=
  if forallb is_ascii s then ascii_lower <$> s else unicode_lower s.

(** [\w] *)
Definition is_word (c : N) : bool :=
  if c <? 128 then is_lower c || is_upper c || is_digit c || (c =? UNDERSCORE)
  else unicode_word c.

(** The default [token_pattern] of the vectorizer, [(?u)\b\w\w+\b]. *)
Definition token_pattern : re.regex :=
  re.seq [re.Bnd is_word; re.Chr is_word; re.plus is_word; re.Bnd is_word].

(** [build_analyzer()]: lower case, then the tokens; no stop words, unigrams. *)
Definition build_analyzer (doc : text) : list text :=
  re.findall token_pattern (str_lower doc).

(** [vocabulary_] after fitting on one document: its distinct terms in
    sorted order, a term's position being its feature index. *)
Definition vocabulary_ (doc : text) : list text :=
  sorted text_ltb id false (remove_dups (build_analyzer doc)).

(** The sparse row of term counts of a document over a vocabulary, as
    [transform] leaves it: the pairs (feature index, count) with a positive
    count, in the order of the feature indices. *)
Definition count_row (vocabulary : list text) (doc : text) : list (nat * nat) :=
  let tokens := build_analyzer doc in
  filter (λ jc, (0 <? jc.2)%nat)
         (imap (λ j term, (j, length (filter (term =.) tokens))) vocabulary).

(** The distinct tokens of a document in the order in which they first
    occur. *)
Fixpoint first_seen (tokens : list text) : list text :=
  match tokens with
  | [] => []
  | t :: ts => t :: filter (λ u, u ≠ t) (first_seen ts)
  end.

(** The position of a term in a vocabulary, its feature index. *)
Definition feature_index (vocabulary : list text) (term : text) : nat :=
  match list_find (term =.) vocabulary with
  | Some (j, _) => j
  | None => O
  end.

(** The row of term counts of the document that the vocabulary is fitted
    on, as [fit_transform] leaves it: the counter meets the terms in the
    order in which they first occur, and sorting the vocabulary renames the
    feature indices of the entries without moving them. *)
Definition fitted_row (vocabulary : list text) (doc : text) : list (nat * nat) :=
  let tokens := build_analyzer doc in
  (λ term, (feature_index vocabulary term, length (filter (term =.) tokens)))
    <$> first_seen tokens.

(** The state of a ranking call that the properties observe: the scores
    that [cosine_similarity] has computed so far. *)
Definition scored (s : float64) : M (list float64) float64 :=
  λ σ, (σ ++ [s], Ok s).

(** [vectorizer.fit_transform([doc])]: the fitted vocabulary and the row of
    the document; it raises on an empty vocabulary. *)
Definition fit_transform (doc : text) : M (list float64) (list text * tfidf_row) :=
  match vocabulary_ doc with
  | [] => raise (ValueError empty_vocabulary)
  | v => mret (v, tfidf_transform (fitted_row v doc))
  end.

(** [vectorizer.transform([doc])] *)
Definition transform (vectorizer : list text) (doc : text) : tfidf_row :=
  tfidf_transform (count_row vectorizer doc).

Definition rank_resumes (resumes : list resume) (job_description : text)
  : M (list float64) (list (resume * float64)) :=
  '(vectorizer, job_vec) ← fit_transform job_description;
  scores ← mapM (λ r,
              let resume_vec := transform vectorizer (raw_text r) in
              scored (cosine_similarity job_vec resume_vec)) resumes;
  mret (sorted float_lt snd true (zip resumes scores)).

(** The score that the loop of [rank_resumes] computes for one resume. *)
Definition resume_score (job_description : text) (r : resume) : float64 :=
  let vectorizer := vocabulary_ job_description in
  cosine_similarity
    (tfidf_transform (fitted_row vectorizer job_description))
    (transform vectorizer (raw_text r)).

End Ranker.

(** ** [main] *)

Module st.

(** The calls of the Streamlit interface that the script makes up to its
    section "Resume Analysis", each with the text it is given, in the order
    in which a run makes them. *)
Inductive call : Type :=
| title (body : text)
| markdown (body : text)
| file_uploader (label : text)
| text_area (label : text)
| button (label : text)
| spinner (text : text)
| subheader (body : text).

End st.

(** [str(idx)] for an index of [enumerate]. *)
Definition str_int (n : nat) : text := codepoints (pretty n).

(** [enumerate(xs, start)] *)
Definition enumerate {A : Type} (start : nat) (xs : list A) : list (nat * A) :=
  imap (λ i x, ((start + i)%nat, x)) xs.

(** What [main] takes from its libraries and from the browser.  An uploaded
    file has a [name].  [read_copy] is what [extract_text] gets from the
    temporary copy that [main] makes of an upload: the text of its pages,
    or the exception that the PDF reader raises.  [main] has the copy
    parsed while it is still open for writing, before it is flushed or
    closed, so what the reader finds need not be the upload: a small
    upload is still in the buffer, the reader finds an empty file and
    raises.  [pipeline] and [decimal_table] are the spaCy pipeline and the
    digits beyond ASCII of [parse_resume]; [splitext] is
    [os.path.splitext] and [format_2f] is [format(score, '.2f')].
    [expander] is the body of the loop of the section "Resume Analysis"
    for one record (lines 110 to 154: the expander with its columns and
    download buttons, checked and drawn by Streamlit); it is run on each
    record in turn and not looked into. *)
Class Libraries {R : Runtime} : Type := {
  UploadedFile : Type;
  file_name : UploadedFile → text;
  read_copy : UploadedFile → outcome (list text);
  pipeline : list pattern → text → list entity;
  decimal_table : N → bool;
  splitext : text → text * text;
  format_2f : float64 → text;
  expander : resume → M (list st.call) unit
}.

Section Main.

Context {R : Runtime} {L : Libraries}.

(** A call of the interface, recorded. *)
Definition emit (c : st.call) : M (list st.call) unit := λ σ, (σ ++ [c], Ok tt).

(** A call of the parser's ranking from the script: the vectorizer and the
    scores it computes live within the call; its result or its exception
    comes back. *)
Definition within {A : Type} (m : M (list float64) A) : M (list st.call) A :=
  λ σ, (σ, (m []).2).

(** [data['name'] = n] *)
Definition set_name (data : resume) (n : text) : resume :=
  {| skills := skills data; education := education data;
     experience := experience data; raw_text := raw_text data; name := Some n |}.

(** [resume['name']]; [main] reads the key only from records on which it
    has set it. *)
Definition get_name (r : resume) : text := default [] (name r).

(** The body of the loop over the uploads: the upload is parsed from its
    temporary copy and named after its file, without the extension; an
    exception of the reader is not caught. *)
Definition parse_upload (uploaded_file : UploadedFile) : M (list st.call) resume :=
  match read_copy uploaded_file with
  | Ok page_texts =>
      let data := parse_resume (λ tmp_file, tmp_file) pipeline decimal_table
                    page_texts in
      mret (set_name data (splitext (file_name uploaded_file)).1)
  | Raise e => raise e
  end.

(** The loop over the uploads. *)
Definition parse_uploads (uploaded_files : list UploadedFile)
  : M (list st.call) (list resume) :=
  mapM parse_upload uploaded_files.

(** [f"**{idx}. {resume['name']}** (Score: {score:.2f})"] *)
Definition ranking_line (idx : nat) (r : resume) (score : float64) : text :=
  codepoints "**" ++ str_int idx ++ codepoints ". " ++ get_name r
  ++ codepoints "** (Score: " ++ format_2f score ++ codepoints ")".

(** The step of [main] under [if job_description.strip():]. *)
Definition ranking_results (resumes : list resume) (job_description : text)
  : M (list st.call) unit :=
  match strip job_description with
  | [] => mret tt
  | _ =>
      ranked_resumes ← within (rank_resumes resumes job_description);
      emit (st.subheader (codepoints "Ranking Results"));;
      mapM (λ '(idx, (r, score)), emit (st.markdown (ranking_line idx r score)))
           (enumerate 1 ranked_resumes);;
      mret tt
  end.

(** The section "Resume Analysis" of [main]. *)
Definition resume_analysis (resumes : list resume) : M (list st.call) unit :=
  emit (st.subheader (codepoints "Resume Analysis"));;
  mapM expander resumes;;
  mret tt.

(** A run of the script: the files that the uploader holds, the text of
    the text area, and whether the button, if it is drawn, was clicked. *)
Definition main (uploaded_files : list UploadedFile) (job_description : text)
    (clicked : bool) : M (list st.call) unit :=
  emit (st.title (codepoints "AI-Powered Resume Analyzer"));;
  emit (st.markdown
          (codepoints "Upload multiple resumes (PDFs) and get detailed analysis"));;
  emit (st.file_uploader (codepoints "Choose PDF resumes"));;
  emit (st.text_area (codepoints "Paste Job Description (for ranking)"));;
  pressed ← match uploaded_files with
            | [] => mret false
            | _ => emit (st.button (codepoints "Analyze Resumes"));; mret clicked
            end;
  if pressed : bool then
    emit (st.spinner (codepoints "Processing resumes..."));;
    resumes ← parse_uploads uploaded_files;
    ranking_results resumes job_description;;
    resume_analysis resumes
  else mret tt.

End Main.

(** * Notions for the statements *)

(** ** Scanning *)

(** The character before the position reached after reading [w]. *)
Definition prev_after (prev : option N) (w : text) : option N :=
  match last w with
  | Some c => Some c
  | None => prev
  end.

(** A pattern that cannot match the empty string. *)
Fixpoint nonempty (r : re.regex) : bool :=
  match r with
  | re.Chr _ => true
  | re.Cat r1 r2 => nonempty r1 || nonempty r2
  | re.Alt r1 r2 => nonempty r1 && nonempty r2
  | _ => false
  end.

(** The matches of a left-to-right scan, stated on the text: where no match
    starts the scan moves on by one character, where one starts it is
    reported and the scan goes on behind it. *)
Inductive scans (r : re.regex) : option N → text → list text → Prop :=
| scans_end prev : scans r prev [] []
| scans_gap prev c s ws :
    re.match_at r prev (c :: s) = None →
    scans r (Some c) s ws →
    scans r prev (c :: s) ws
| scans_hit prev w s ws :
    w ≠ [] →
    re.match_at r prev (w ++ s) = Some (length w) →
    scans r (prev_after prev w) s ws →
    scans r prev (w ++ s) (w :: ws).

(** ** Month tokens *)

(** A text begins with a word, compared as [(?i)] compares letters. *)
Fixpoint iprefix (w s : text) : bool :=
  match w, s with
  | [], _ => true
  | p :: w', c :: s' => ichar p c && iprefix w' s'
  | _ :: _, [] => false
  end.

(** A month token starts at the head of the text. *)
Definition month_at (s : text) : bool :=
  existsb (λ w, iprefix (codepoints w) s) months.

(** A month token occurs somewhere in the text. *)
Fixpoint has_month_token (s : text) : bool :=
  match s with
  | [] => false
  | _ :: s' => month_at s || has_month_token s'
  end.

(** ** Ties *)

(** Neither key is smaller than the other. *)
Definition tied {K : Type} (lt : K → K → bool) (a b : K) : bool :=
  negb (lt a b) && negb (lt b a).

(** ** Normal form *)

(** What [re.sub] with the pattern [\s+] and a space computes: a run of
    white space becomes one space ([in_run]: the previous character was
    white space). *)
Fixpoint squeeze (in_run : bool) (s : text) : text :=
  match s with
  | [] => []
  | c :: s' =>
      if is_space c then (if in_run then squeeze true s' else SPACE :: squeeze true s')
      else c :: squeeze false s'
  end.

(** No two white-space characters in a row. *)
Fixpoint single_spaced (s : text) : bool :=
  match s with
  | c :: s' =>
      match s' with
      | d :: _ => negb (is_space c && is_space d) && single_spaced s'
      | [] => true
      end
  | [] => true
  end.

(** The alphabet of the normalised text: ASCII letters, digits, space,
    period, comma and hyphen. *)
Definition in_alphabet (c : N) : bool :=
  is_lower c || is_upper c || is_digit c
  || (c =? SPACE) || (c =? PERIOD) || (c =? HYPHEN) || (c =? COMMA).

(** No white space at either end. *)
Definition trimmed (s : text) : Prop :=
  (∀ c, head s = Some c → is_space c = false)
  ∧ (∀ c, last s = Some c → is_space c = false).

(** A character that the normalisation keeps as it is: an ASCII letter, an
    ASCII digit, a period, a hyphen or a comma.  Every other letter or digit
    (an accented letter, a digit of another script) is a forbidden
    character. *)
Definition visible (c : N) : bool := kept c && negb (is_space c).

(** The text that [re.sub] builds from the pieces of a scan. *)
Definition render (repl : text) (ps : list re.piece) : text :=
  mjoin ((λ p, match p with re.Hit _ => repl | re.Gap c => [c] end) <$> ps).

(** A stand-in for the pipeline, to run [parse_resume] on a text of words
    separated by single spaces: a word that is a phrase of the table is an
    entity with the label of its first pattern, once per occurrence. *)
Fixpoint words_from (w : text) (t : text) : list text :=
  match t with
  | [] => [reverse w]
  | c :: t' => if c =? SPACE then reverse w :: words_from [] t' else words_from (c :: w) t'
  end.

Definition word_tagger (ps : list pattern) (t : text) : list entity :=
  w ← words_from [] t;
  match list_find (λ p, codepoints (phrase p) = w) ps with
  | Some (_, p) => [Entity w (label p)]
  | None => []
  end.

(** ** The model run in exact arithmetic *)

(** An instance of what the ranking takes from the runtime, to run the model
    on inputs: the Unicode tables on Latin-1 (other characters have no case
    and are no word characters here), and the kernels in exact arithmetic.
    With one fitted document every inverse document frequency is 1 and the
    cosine does not depend on the length of the rows nor, in exact
    arithmetic, on the order of their entries, so a row is kept as its term
    counts and the score is kept as the square of the cosine, a rational;
    scores are never negative, so they compare as their squares. *)
Module Exact.

Definition latin1_lower (s : text) : text :=
  (λ c, if is_upper c || ((192 <=? c) && (c <=? 222) && negb (c =? 215))
        then c + 32 else c) <$> s.

Definition latin1_word (c : N) : bool :=
  (c =? 170) || (c =? 178) || (c =? 179) || (c =? 181) || (c =? 185) || (c =? 186)
  || ((188 <=? c) && (c <=? 190))
  || ((192 <=? c) && (c <=? 255) && negb (c =? 215) && negb (c =? 247)).

Definition row : Type := list (nat * nat).

Definition counts_of (counts : list (nat * nat)) : row := counts.

Definition entry (a : row) (j : nat) : nat :=
  sum_list ((λ jc, if decide (jc.1 = j) then jc.2 else 0%nat) <$> a).

Definition dot (a b : row) : nat :=
  sum_list ((λ jc, jc.2 * entry b jc.1)%nat <$> a).

(** The square of the cosine of two rows, 0 when one of them is zero. *)
Definition cosine_squared (a b : row) : QArith_base.Q :=
  match (dot a a * dot b b)%nat with
  | O => QArith_base.Qmake 0 1
  | S n => QArith_base.Qmake (Z.of_nat (dot a b * dot a b)) (Pos.of_succ_nat n)
  end.

Definition lt (x y : QArith_base.Q) : bool := negb (QArith_base.Qle_bool y x).

Definition runtime : Runtime := {|
  unicode_lower := latin1_lower;
  unicode_word := latin1_word;
  float64 := QArith_base.Q;
  float_lt := lt;
  tfidf_row := row;
  tfidf_transform := counts_of;
  cosine_similarity := cosine_squared
|}.

Definition rank_resumes := rank_resumes (R:=runtime).

Definition resume_a : resume :=
  Resume [codepoints "Python"; codepoints "SQL"] [] []
         (codepoints "Python SQL Machine Learning") (Some (codepoints "A")).

Definition resume_b : resume :=
  Resume [] [] [] (codepoints "Excel PowerPoint") (Some (codepoints "B")).

Definition resume_c : resume :=
  Resume [codepoints "SQL"] [] [] (codepoints "SQL SQL Python Python") (Some (codepoints "C")).

End Exact.

(** ** The kernels in binary64 *)

(** The kernels of scikit-learn as the ranking calls them, on the floats of
    the machine.  With one fitted document every inverse document frequency
    is ln(2/2) + 1, which is 1.  [tfidf_transform] multiplies each count by
    it and divides the row by its Euclidean length, a row without entries
    or of zeros being left as it is; [cosine_similarity] normalises both
    rows once more and sums the products of the entries that have the same
    feature index, in the order of the entries of its first row.  The
    Unicode tables stay parameters. *)
Module Binary64.

Definition row : Type := list (nat * float).

(** A count as a float. *)
Definition of_count (n : nat) : float := of_uint63 (of_Z (Z.of_nat n)).

Definition idf : float := 1%float.

Definition sum_of_squares (x : row) : float :=
  foldl (λ acc e, acc + e.2 * e.2)%float 0%float x.

(** [normalize(X, norm='l2')] on one sparse row. *)
Definition normalize (x : row) : row :=
  let sum := sum_of_squares x in
  if (sum =? 0)%float then x
  else let norm := PrimFloat.sqrt sum in (λ e, (e.1, e.2 / norm)%float) <$> x.

Definition tfidf (counts : list (nat * nat)) : row :=
  normalize ((λ jc, (jc.1, of_count jc.2 * idf)%float) <$> counts).

(** The entry of a row at a feature index. *)
Definition entry (y : row) (j : nat) : option float :=
  match list_find (λ e, e.1 = j) y with
  | Some (_, e) => Some e.2
  | None => None
  end.

(** The product of a sparse row with a sparse column. *)
Definition dot (x y : row) : float :=
  foldl (λ acc e, match entry y e.1 with
                  | Some v => (acc + e.2 * v)%float
                  | None => acc
                  end) 0%float x.

Definition cosine (x y : row) : float := dot (normalize x) (normalize y).

Definition runtime (lower : text → text) (word : N → bool) : Runtime := {|
  unicode_lower := lower;
  unicode_word := word;
  float64 := float;
  float_lt := PrimFloat.ltb;
  tfidf_row := row;
  tfidf_transform := tfidf;
  cosine_similarity := cosine
|}.

(** The ranking on the Latin-1 tables. *)
Definition rank_resumes := rank_resumes (R:=runtime Exact.latin1_lower Exact.latin1_word).

End Binary64.


(** ** Notions for the further properties *)

(** Two word characters in a row occur somewhere in the text. *)
Fixpoint has_word_pair {R : Runtime} (s : text) : bool :=
  match s with
  | c :: s' =>
      match s' with
      | d :: _ => (is_word c && is_word d) || has_word_pair s'
      | [] => false
      end
  | [] => false
  end.


(** ** Date ranges *)

(** The strings a pattern matches: [matches r prev w rest] when [r] matches
    [w] in front of [rest], [prev] being the character before [w]. *)
Inductive matches : re.regex → option N → text → text → Prop :=
| matches_eps prev rest : matches re.Eps prev [] rest
| matches_chr p prev c rest : p c = true → matches (re.Chr p) prev [c] rest
| matches_cat r1 r2 prev w1 w2 rest :
    matches r1 prev w1 (w2 ++ rest) →
    matches r2 (prev_after prev w1) w2 rest →
    matches (re.Cat r1 r2) prev (w1 ++ w2) rest
| matches_alt_l r1 r2 prev w rest :
    matches r1 prev w rest → matches (re.Alt r1 r2) prev w rest
| matches_alt_r r1 r2 prev w rest :
    matches r2 prev w rest → matches (re.Alt r1 r2) prev w rest
| matches_star p prev w rest :
    forallb p w = true → matches (re.Star p) prev w rest
| matches_bnd wd prev rest :
    xorb (re.word_at wd prev) (re.word_at wd (head rest)) = true →
    matches (re.Bnd wd) prev [] rest.

(** A text is a word, compared as [(?i)] compares letters. *)
Fixpoint ispells (w s : text) : bool :=
  match w, s with
  | [], [] => true
  | p :: w', c :: s' => ichar p c && ispells w' s'
  | _, _ => false
  end.

(** One of the twelve month tokens, in any letter case. *)
Definition is_month (s : text) : bool :=
  existsb (λ w, ispells (codepoints w) s) months.

(** The word "present", in any letter case. *)
Definition is_present (s : text) : bool := ispells (codepoints "present") s.

(** A month token, then any letters, white space, hyphens and commas, then
    four decimal digits: "Jan 2019", "September, 2021", "may-2020". *)
Definition is_month_year (unicode_decimal : N → bool) (s : text) : Prop :=
  ∃ mo fill yr,
    s = mo ++ fill ++ yr
    ∧ is_month mo = true
    ∧ forallb date_filler fill = true
    ∧ length yr = 4%nat ∧ forallb (decimal unicode_decimal) yr = true.

(** A date range: a month and year, white space and dashes, then "present"
    or a month and year. *)
Definition is_date_range (unicode_decimal : N → bool) (s : text) : Prop :=
  ∃ a sep b,
    s = a ++ sep ++ b
    ∧ is_month_year unicode_decimal a
    ∧ sep ≠ [] ∧ forallb range_sep sep = true
    ∧ (is_present b = true ∨ is_month_year unicode_decimal b).

(** The Arabic-Indic digits, a part of the decimal digits beyond ASCII. *)
Definition arabic_indic_digit (c : N) : bool := (1632 <=? c) && (c <=? 1641).

(** ** A run of the script *)

(** The calls of a run in which files are uploaded and the button is
    clicked, up to the parsing. *)
Definition opening : list st.call :=
  [st.title (codepoints "AI-Powered Resume Analyzer");
   st.markdown (codepoints "Upload multiple resumes (PDFs) and get detailed analysis");
   st.file_uploader (codepoints "Choose PDF resumes");
   st.text_area (codepoints "Paste Job Description (for ranking)");
   st.button (codepoints "Analyze Resumes");
   st.spinner (codepoints "Processing resumes...")].

(** What the loop over the uploads ends with: the records of the uploads,
    in their order, or the exception of the first upload on which the
    reader raises. *)
Definition parsed {R : Runtime} {L : Libraries}
    (uploaded_files : list UploadedFile) : outcome (list resume) :=
  (parse_uploads uploaded_files []).2.

(** Stand-ins to run the script in exact arithmetic: an upload is its name
    and the text of the pages that the reader finds in its copy, if it
    finds a document; the name is cut at its last period, a score is
    printed as the fraction that its square is, and the expander of a
    record is recorded as a line with its name. *)
Fixpoint until_period (s : text) : text :=
  match s with
  | [] => []
  | c :: s' => if c =? PERIOD then [] else c :: until_period s'
  end.

Definition cut_extension (s : text) : text * text :=
  let r := reverse s in
  let ext := until_period r in
  match drop (length ext) r with
  | [] => (s, [])
  | dot :: root => (reverse root, dot :: reverse ext)
  end.

Definition print_fraction (q : QArith_base.Q) : text :=
  codepoints (pretty (QArith_base.Qnum q)) ++ codepoints "/"
  ++ codepoints (pretty (Zpos (QArith_base.Qden q))).

Definition read_stand_in (f : text * option (list text)) : outcome (list text) :=
  match f.2 with
  | Some page_texts => Ok page_texts
  | None => Raise (PdfError "PdfminerException")
  end.

Definition exact_libraries : Libraries (R:=Exact.runtime) :=
  Build_Libraries Exact.runtime (text * option (list text)) fst read_stand_in
    word_tagger (λ _, false) cut_extension print_fraction
    (λ r, emit (st.markdown (default [] (name r)))).

(** * Properties *)

(** ** Characters and [strip] *)

(** Turns the boolean tests on code points into arithmetic. *)
Ltac chars :=
  unfold kept, iletter, date_filler, range_sep, is_space, is_upper, is_lower,
    is_digit, is_ascii, ascii_lower,
    SPACE, COMMA, HYPHEN, PERIOD, EN_DASH, UNDERSCORE in *;
  repeat match goal with
  | H : _ = true |- _ =>
      first [ rewrite orb_true_iff in H | rewrite andb_true_iff in H
            | rewrite negb_true_iff in H
            | rewrite N.leb_le in H | rewrite N.eqb_eq in H | rewrite N.ltb_lt in H ]
  | H : _ = false |- _ =>
      first [ rewrite orb_false_iff in H | rewrite andb_false_iff in H
            | rewrite negb_false_iff in H
            | rewrite N.leb_gt in H | rewrite N.eqb_neq in H | rewrite N.ltb_ge in H ]
  | H : _ ∧ _ |- _ => destruct H
  | H : _ ∨ _ |- _ => destruct H
  end.

Lemma space_not_upper c : is_space c = true → is_upper c = false.
Proof.
  intros H. destruct (is_upper c) eqn:E; [|done]. chars; lia.
Qed.

Lemma lstrip_all_space s : forallb is_space s = true → lstrip s = [].
Proof.
  induction s as [|c s IH]; simpl; [done|].
  intros [Hc Hs]%andb_true_iff. rewrite Hc. auto.
Qed.

Lemma lstrip_nil_inv s : lstrip s = [] → forallb is_space s = true.
Proof.
  induction s as [|c s IH]; simpl; [done|].
  destruct (is_space c); [auto | done].
Qed.

Lemma lstrip_length s : (length (lstrip s) ≤ length s)%nat.
Proof.
  induction s as [|c s IH]; simpl; [lia|].
  destruct (is_space c); simpl; lia.
Qed.

Lemma lstrip_drop s : drop (length s - length (lstrip s)) s = lstrip s.
Proof.
  induction s as [|c s IH]; simpl; [done|].
  destruct (is_space c) eqn:E; simpl.
  - pose proof (lstrip_length s).
    replace (S (length s) - length (lstrip s))%nat
      with (S (length s - length (lstrip s))) by lia.
    done.
  - by rewrite Nat.sub_diag.
Qed.

Lemma strip_nil_inv s : strip s = [] → forallb is_space s = true.
Proof.
  unfold strip, rstrip. intros H.
  assert (lstrip (reverse (lstrip s)) = []) as H1.
  { apply (f_equal reverse) in H. by rewrite reverse_involutive in H. }
  apply lstrip_nil_inv in H1.
  assert (lstrip s = []) as H2.
  { destruct (lstrip s) as [|c l] eqn:E; [done|].
    assert (is_space c = false) as Hc.
    { clear -E. induction s as [|d s IH]; simpl in E; [done|].
      destruct (is_space d) eqn:Ed; [auto | congruence]. }
    rewrite forallb_forall in H1. specialize (H1 c).
    rewrite H1 in Hc; [done|]. apply list_elem_of_In, elem_of_reverse. by left. }
  by apply lstrip_nil_inv.
Qed.

Lemma strip_all_space s : forallb is_space s = true → strip s = [].
Proof. intros H. unfold strip, rstrip. by rewrite (lstrip_all_space s). Qed.

(** ** The matcher *)

Lemma prev_after_cons prev c w : prev_after prev (c :: w) = prev_after (Some c) w.
Proof.
  unfold prev_after. destruct w as [|d w]; [done|]. rewrite last_cons_cons.
  destruct (last (d :: w)) eqn:E; [done|]. by apply last_None in E.
Qed.

Lemma match_at_le r prev s n : re.match_at r prev s = Some n → (n ≤ length s)%nat.
Proof.
  unfold re.match_at. destruct (re.m r re.accept prev s); [|done].
  intros [= <-]. lia.
Qed.

Lemma scan_skip r n : ∀ prev s, (n ≤ length s)%nat →
  re.scan r n prev s = re.scan r 0 (prev_after prev (take n s)) (drop n s).
Proof.
  induction n as [|n IH]; intros prev s Hn.
  - by rewrite take_0, drop_0.
  - destruct s as [|c s]; simpl in Hn; [lia|].
    cbn [re.scan take drop]. rewrite IH by lia. by rewrite prev_after_cons.
Qed.

Lemma scan_gap r prev c s :
  re.match_at r prev (c :: s) = None →
  re.scan r 0 prev (c :: s) = re.Gap c :: re.scan r 0 (Some c) s.
Proof. simpl. by intros ->. Qed.

Lemma scan_hit r prev c s n :
  re.match_at r prev (c :: s) = Some (S n) →
  re.scan r 0 prev (c :: s)
  = re.Hit (take (S n) (c :: s))
      :: re.scan r 0 (prev_after prev (take (S n) (c :: s))) (drop (S n) (c :: s)).
Proof.
  intros H. pose proof (match_at_le _ _ _ _ H) as Hle. simpl in Hle.
  cbn [re.scan]. rewrite H. f_equal.
  rewrite scan_skip by lia. cbn [take drop]. by rewrite prev_after_cons.
Qed.

Lemma star_inv p k : ∀ s prev x,
  re.star p k prev s = Some x →
  ∃ prev' s', k prev' s' = Some x ∧ (length s' ≤ length s)%nat.
Proof.
  induction s as [|c s IH]; intros prev x; simpl.
  - intros H. exists prev, []. done.
  - destruct (p c).
    + destruct (re.star p k (Some c) s) as [y|] eqn:E.
      * intros [= <-]. destruct (IH _ _ E) as (prev' & s' & Hk & Hl).
        exists prev', s'. split; [done | lia].
      * intros H. exists prev, (c :: s). done.
    + intros H. exists prev, (c :: s). done.
Qed.

Lemma m_inv r : ∀ k prev s x,
  re.m r k prev s = Some x →
  ∃ prev' s', k prev' s' = Some x
    ∧ (length s' + (if nonempty r then 1 else 0) ≤ length s)%nat.
Proof.
  induction r as [|p|r1 IH1 r2 IH2|r1 IH1 r2 IH2|p|w]; intros k prev s x; simpl.
  - intros H. exists prev, s. split; [done | lia].
  - destruct s as [|c s]; [done|]. destruct (p c); [|done].
    intros H. exists (Some c), s. split; [done | simpl; lia].
  - intros H. destruct (IH1 _ _ _ _ H) as (p1 & s1 & H1 & L1).
    destruct (IH2 _ _ _ _ H1) as (p2 & s2 & H2 & L2).
    exists p2, s2. split; [done|].
    destruct (nonempty r1), (nonempty r2); simpl; lia.
  - destruct (re.m r1 k prev s) as [y|] eqn:E.
    + intros [= <-]. destruct (IH1 _ _ _ _ E) as (p1 & s1 & H1 & L1).
      exists p1, s1. split; [done|].
      destruct (nonempty r1), (nonempty r2); simpl in *; lia.
    + intros H. destruct (IH2 _ _ _ _ H) as (p2 & s2 & H2 & L2).
      exists p2, s2. split; [done|].
      destruct (nonempty r1), (nonempty r2); simpl in *; lia.
  - intros H. destruct (star_inv _ _ _ _ _ H) as (p1 & s1 & H1 & L1).
    exists p1, s1. split; [done | lia].
  - destruct (xorb _ _); [|done].
    intros H. exists prev, s. split; [done | lia].
Qed.

Lemma match_at_pos r prev s n :
  nonempty r = true → re.match_at r prev s = Some n → (0 < n)%nat.
Proof.
  intros Hr. unfold re.match_at.
  destruct (re.m r re.accept prev s) as [rest|] eqn:E; [|done].
  intros [= <-]. destruct (m_inv _ _ _ _ _ E) as (p' & s' & [= ->] & L).
  rewrite Hr in L. lia.
Qed.

Lemma match_at_nil r prev : nonempty r = true → re.match_at r prev [] = None.
Proof.
  intros Hr. destruct (re.match_at r prev []) as [n|] eqn:E; [|done].
  pose proof (match_at_pos _ _ _ _ Hr E). pose proof (match_at_le _ _ _ _ E).
  simpl in *. lia.
Qed.

Lemma finditer_scans r : nonempty r = true →
  ∀ s prev, scans r prev s (re.hits (re.scan r 0 prev s)).
Proof.
  intros Hr s.
  assert (∀ n s, (length s ≤ n)%nat →
            ∀ prev, scans r prev s (re.hits (re.scan r 0 prev s))) as H;
    [|by apply (H (length s))].
  clear s. induction n as [|n IH]; intros s Hn prev.
  - destruct s; [|simpl in Hn; lia].
    simpl. rewrite match_at_nil by done. constructor.
  - destruct s as [|c s].
    { simpl. rewrite match_at_nil by done. constructor. }
    simpl in Hn.
    destruct (re.match_at r prev (c :: s)) as [[|k]|] eqn:E.
    + pose proof (match_at_pos _ _ _ _ Hr E). lia.
    + pose proof (match_at_le _ _ _ _ E) as Hk.
      rewrite (scan_hit _ _ _ _ _ E). cbn [re.hits omap].
      rewrite <- (take_drop (S k) (c :: s)) at 1.
      apply scans_hit.
      * done.
      * rewrite take_drop, length_take. rewrite E. f_equal. lia.
      * apply IH. rewrite length_drop. simpl in *. lia.
    + rewrite (scan_gap _ _ _ _ E). cbn [re.hits omap].
      apply scans_gap; [done|]. apply IH. lia.
Qed.

Lemma scan_no_hit r : ∀ s prev,
  (∀ prev' s', suffix s' s → re.match_at r prev' s' = None) →
  re.hits (re.scan r 0 prev s) = [].
Proof.
  induction s as [|c s IH]; intros prev H.
  - simpl. by rewrite H.
  - rewrite scan_gap by (by apply H). cbn [re.hits omap].
    apply IH. intros prev' s' Hs. apply H. by apply suffix_cons_r.
Qed.

Lemma m_alts rs : ∀ k prev s x,
  re.m (re.alts rs) k prev s = Some x → ∃ r, r ∈ rs ∧ re.m r k prev s = Some x.
Proof.
  induction rs as [|r rs IH]; intros k prev s x.
  - simpl. destruct s; done.
  - destruct rs as [|r' rs].
    + intros H. exists r. split; [left | done].
    + cbn [re.alts re.m]. destruct (re.m r k prev s) as [y|] eqn:E.
      * intros [= <-]. exists r. split; [left | done].
      * intros H. destruct (IH _ _ _ _ H) as (r0 & Hin & Hr0).
        exists r0. split; [by right | done].
Qed.

Lemma m_ilit w : ∀ k prev s x,
  re.m (ilit w) k prev s = Some x → iprefix (codepoints w) s = true.
Proof.
  unfold ilit. induction (codepoints w) as [|p l IH]; intros k prev s x; [done|].
  destruct l as [|p' l].
  - simpl. destruct s as [|c s]; [done|]. destruct (ichar p c); done.
  - cbn [fmap list_fmap re.seq re.m iprefix].
    destruct s as [|c s]; [done|]. destruct (ichar p c); [|done].
    intros H. by apply IH in H.
Qed.

Lemma m_month k prev s x : re.m month k prev s = Some x → month_at s = true.
Proof.
  intros H. apply m_alts in H as (r & Hin & Hr).
  apply list_elem_of_fmap in Hin as (w & -> & Hw).
  apply m_ilit in Hr. unfold month_at. apply existsb_exists.
  exists w. split; [by apply list_elem_of_In | done].
Qed.

Lemma experience_match_month nd prev s n :
  re.match_at (experience_pattern nd) prev s = Some n → month_at s = true.
Proof.
  unfold re.match_at.
  destruct (re.m (experience_pattern nd) re.accept prev s) as [rest|] eqn:E; [|done].
  intros _. unfold experience_pattern, month_year in E.
  cbn [re.seq re.m] in E. by apply m_month in E.
Qed.

Lemma experience_pattern_nonempty nd : nonempty (experience_pattern nd) = true.
Proof. reflexivity. Qed.

Lemma has_month_token_suffix s s' :
  has_month_token s = false → suffix s' s → month_at s' = false.
Proof.
  induction s as [|c s IH]; intros H Hs.
  - apply suffix_nil_inv in Hs as ->. done.
  - simpl in H. apply orb_false_iff in H as [H1 H2].
    destruct s' as [|d s']; [done|].
    apply suffix_cons_inv in Hs as [[= -> ->] | Hs]; [done | auto].
Qed.

(** ** Experience spans *)

Lemma extract_experience_no_month nd t :
  has_month_token t = false → _extract_experience nd t = [].
Proof.
  intros H. unfold _extract_experience, re.finditer.
  rewrite scan_no_hit; [done|].
  intros prev' s' Hs.
  destruct (re.match_at (experience_pattern nd) prev' s') as [n|] eqn:E; [|done].
  apply experience_match_month in E.
  by rewrite (has_month_token_suffix _ _ H Hs) in E.
Qed.

(** C8. Experience extraction scans the text from left to right and returns
    every match of the date-range pattern, trimmed, in the order of
    appearance: the result is [strip] of the spans [ws] that a left-to-right
    scan reports, one entry per span, and a span starts only where the scan
    stands (behind the previous span), so spans do not overlap.  There is no
    de-duplication: a range written twice is returned twice.  On
    "Jan 2019 - Present some text Mar 2020 - Apr 2021" the result is the two
    spans "Jan 2019 - Present" and "Mar 2020 - Apr 2021"; on a text without
    month token it is empty. *)
Theorem extract_experience_spans (unicode_decimal : N → bool) :
  (∀ t, ∃ ws, scans (experience_pattern unicode_decimal) None t ws
              ∧ _extract_experience unicode_decimal t = strip <$> ws)
  ∧ _extract_experience unicode_decimal
      (codepoints "Jan 2019 - Present some text Mar 2020 - Apr 2021")
    = [codepoints "Jan 2019 - Present"; codepoints "Mar 2020 - Apr 2021"]
  ∧ _extract_experience unicode_decimal
      (codepoints "Jan 2019 - Present and again Jan 2019 - Present")
    = [codepoints "Jan 2019 - Present"; codepoints "Jan 2019 - Present"]
  ∧ (∀ t, has_month_token t = false → _extract_experience unicode_decimal t = []).
Proof.
  split; [|split; [|split]].
  - intros t. exists (re.finditer (experience_pattern unicode_decimal) t).
    split; [|done]. apply finditer_scans, experience_pattern_nonempty.
  - vm_compute. reflexivity.
  - vm_compute. reflexivity.
  - apply extract_experience_no_month.
Qed.

(** ** [sorted] is a stable sort *)

Section SortedFacts.

Context {A K : Type}.
Variable lt : K → K → bool.
Variable key : A → K.

Lemma insert_sorted_perm x l : insert_sorted lt key x l ≡ₚ x :: l.
Proof.
  induction l as [|y l IH]; simpl; [done|].
  destruct (lt (key y) (key x)); [|done].
  rewrite IH. apply Permutation_swap.
Qed.

Lemma sort_ascending_perm l : sort_ascending lt key l ≡ₚ l.
Proof.
  induction l as [|x l IH]; simpl; [done|].
  by rewrite insert_sorted_perm, IH.
Qed.

Lemma sorted_perm rev l : sorted lt key rev l ≡ₚ l.
Proof.
  unfold sorted. destruct rev.
  - by rewrite reverse_Permutation, sort_ascending_perm, reverse_Permutation.
  - apply sort_ascending_perm.
Qed.

(** [<] on the keys is a strict weak order: it is asymmetric, and what lies
    strictly between nothing is tied lt with nothing, as for numbers. *)
Hypothesis lt_asym : ∀ x y, lt x y = true → lt y x = false.
Hypothesis lt_negtrans : ∀ x y z, lt x z = true → lt x y = true ∨ lt y z = true.

Lemma insert_sorted_ascending x l :
  StronglySorted (λ a b, lt (key b) (key a) = false) l →
  StronglySorted (λ a b, lt (key b) (key a) = false) (insert_sorted lt key x l).
Proof.
  induction l as [|y l IH]; simpl; intros Hs.
  - repeat constructor.
  - apply StronglySorted_cons in Hs as [Hy Hl].
    destruct (lt (key y) (key x)) eqn:E.
    + apply StronglySorted_cons. split; [|auto].
      rewrite insert_sorted_perm. constructor; [by apply lt_asym | done].
    + apply StronglySorted_cons. split.
      * constructor; [done|].
        rewrite Forall_forall in Hy |- *. intros z Hz.
        destruct (lt (key z) (key x)) eqn:Ez; [|done].
        destruct (lt_negtrans _ (key y) _ Ez) as [H|H]; [|congruence].
        rewrite (Hy z Hz) in H. done.
      * apply StronglySorted_cons. done.
Qed.

Lemma sort_ascending_sorted l :
  StronglySorted (λ a b, lt (key b) (key a) = false) (sort_ascending lt key l).
Proof.
  induction l as [|x l IH]; simpl; [constructor|].
  by apply insert_sorted_ascending.
Qed.

Lemma StronglySorted_reverse (R : relation A) l :
  StronglySorted R l → StronglySorted (flip R) (reverse l).
Proof.
  induction 1 as [|x l Hl IH Hx]; [constructor|].
  rewrite reverse_cons. apply StronglySorted_app_2; [|done|repeat constructor].
  intros x1 x2 H1 ->%list_elem_of_singleton.
  rewrite elem_of_reverse in H1. rewrite Forall_forall in Hx. by apply (Hx x1).
Qed.

(** With [reverse=True] the result is in descending order of the keys. *)
Lemma sorted_descending l :
  StronglySorted (λ a b, lt (key a) (key b) = false) (sorted lt key true l).
Proof.
  unfold sorted.
  apply (StronglySorted_reverse (λ a b, lt (key b) (key a) = false)).
  apply sort_ascending_sorted.
Qed.

Lemma tied_trans u v w : tied lt u v = true → tied lt v w = true → tied lt u w = true.
Proof.
  unfold tied. rewrite !andb_true_iff, !negb_true_iff.
  intros [H1 H2] [H3 H4]. split.
  - destruct (lt u w) eqn:E; [|done].
    destruct (lt_negtrans _ v _ E); congruence.
  - destruct (lt w u) eqn:E; [|done].
    destruct (lt_negtrans _ v _ E); congruence.
Qed.

Lemma insert_sorted_stable v x l :
  filter (λ a, tied lt v (key a) = true) (insert_sorted lt key x l)
  = filter (λ a, tied lt v (key a) = true) (x :: l).
Proof.
  induction l as [|y l IH]; simpl; [done|].
  destruct (lt (key y) (key x)) eqn:E; [|done].
  rewrite filter_cons, IH, !filter_cons.
  destruct (decide (tied lt v (key y) = true)) as [Hy|Hy];
    destruct (decide (tied lt v (key x) = true)) as [Hx|Hx]; try done.
  exfalso.
  assert (tied lt (key y) (key x) = true) as Ht.
  { apply (tied_trans _ v); [|done].
    unfold tied in *. by rewrite andb_comm. }
  unfold tied in Ht. rewrite E in Ht. done.
Qed.

Lemma sort_ascending_stable v l :
  filter (λ a, tied lt v (key a) = true) (sort_ascending lt key l)
  = filter (λ a, tied lt v (key a) = true) l.
Proof.
  induction l as [|x l IH]; simpl; [done|].
  by rewrite insert_sorted_stable, !filter_cons, IH.
Qed.

(** Elements with tied keys keep their order, in either direction. *)
Lemma sorted_stable rev v l :
  filter (λ a, tied lt v (key a) = true) (sorted lt key rev l)
  = filter (λ a, tied lt v (key a) = true) l.
Proof.
  unfold sorted. destruct rev; [|apply sort_ascending_stable].
  by rewrite filter_reverse, sort_ascending_stable, filter_reverse,
    reverse_involutive.
Qed.

End SortedFacts.

(** ** Ranking *)

Section RankerFacts.

Context {R : Runtime}.

Lemma vocabulary_nil doc : vocabulary_ doc = [] ↔ build_analyzer doc = [].
Proof.
  unfold vocabulary_. split; intros H; [|by rewrite H].
  destruct (build_analyzer doc) as [|x l]; [done|].
  assert (x ∈ sorted text_ltb id false (remove_dups (x :: l))) as Hx.
  { rewrite sorted_perm. apply elem_of_remove_dups. left. }
  rewrite H in Hx. by apply not_elem_of_nil in Hx.
Qed.

Lemma mapM_scored (g : resume → float64) rs : ∀ σ,
  mapM (λ r, scored (g r)) rs σ = (σ ++ (g <$> rs), Ok (g <$> rs)).
Proof.
  induction rs as [|r rs IH]; intros σ; simpl.
  - by rewrite app_nil_r.
  - unfold mbind, M_bind, scored at 1. rewrite IH.
    unfold mret, M_ret. by rewrite <- app_assoc.
Qed.

Lemma rank_resumes_raise rs jd σ :
  build_analyzer jd = [] →
  rank_resumes rs jd σ = (σ, Raise (ValueError empty_vocabulary)).
Proof.
  intros H%vocabulary_nil. unfold rank_resumes, fit_transform.
  unfold mbind, M_bind. by rewrite H.
Qed.

Lemma fit_transform_ok jd (σ : list float64) :
  build_analyzer jd ≠ [] →
  fit_transform jd σ
  = (σ, Ok (vocabulary_ jd, tfidf_transform (fitted_row (vocabulary_ jd) jd))).
Proof.
  intros H. unfold fit_transform.
  destruct (vocabulary_ jd) as [|t v] eqn:E; [|done].
  by apply vocabulary_nil in E.
Qed.

Lemma rank_resumes_ok rs jd σ :
  build_analyzer jd ≠ [] →
  rank_resumes rs jd σ
  = (σ ++ (resume_score jd <$> rs),
     Ok (sorted float_lt snd true (zip rs (resume_score jd <$> rs)))).
Proof.
  intros H. unfold rank_resumes.
  unfold mbind at 1, M_bind at 1. rewrite fit_transform_ok by done.
  unfold mbind at 1, M_bind at 1.
  change (mapM (M:=M (list float64)) _ rs σ)
    with (mapM (λ r, scored (resume_score jd r)) rs σ).
  by rewrite mapM_scored.
Qed.

(** What the tables of the interpreter satisfy on white space: lower-casing
    leaves it alone, and it is not made of word characters. *)
Hypothesis lower_blank : ∀ s, forallb is_space s = true → unicode_lower s = s.
Hypothesis word_not_space : ∀ c, is_space c = true → unicode_word c = false.

Lemma space_not_word c : is_space c = true → is_word c = false.
Proof.
  intros H. unfold is_word. destruct (c <? 128) eqn:E; [|auto].
  destruct (_ || _) eqn:E'; [|done]. chars; lia.
Qed.

Lemma str_lower_blank s :
  forallb is_space s = true → str_lower s = s.
Proof.
  intros H. unfold str_lower. destruct (forallb is_ascii s); [|auto].
  induction s as [|c s IH]; [done|].
  simpl in H. apply andb_true_iff in H as [Hc Hs].
  cbn [fmap list_fmap]. rewrite IH by done. f_equal.
  unfold ascii_lower. by rewrite space_not_upper.
Qed.

Lemma token_no_match prev s :
  match s with c :: _ => is_word c = false | [] => True end →
  re.match_at token_pattern prev s = None.
Proof.
  intros H. unfold re.match_at, token_pattern. cbn [re.seq re.m].
  destruct (xorb _ _); [|done].
  destruct s as [|c s]; [done|]. by rewrite H.
Qed.

Lemma build_analyzer_blank s :
  forallb is_space s = true → build_analyzer s = [].
Proof.
  intros H. unfold build_analyzer, re.findall, re.finditer.
  rewrite str_lower_blank by done.
  apply scan_no_hit. intros prev' s' Hs. apply token_no_match.
  destruct s' as [|c s']; [done|]. apply space_not_word.
  rewrite forallb_forall in H. apply H, list_elem_of_In.
  destruct Hs as [l ->]. apply elem_of_app. right. left.
Qed.

(** C1. When the job description is empty or consists of white space only,
    [rank_resumes] fails: [fit_transform] raises the [ValueError] of the empty
    vocabulary (the spec's InvalidInputError) before the loop over the
    resumes is entered, so the scores computed so far are what they were:
    no resume is scored. *)
Theorem rank_resumes_blank_job_description rs jd σ :
  strip jd = [] →
  rank_resumes rs jd σ = (σ, Raise (ValueError empty_vocabulary)).
Proof.
  intros H%strip_nil_inv. apply rank_resumes_raise. by apply build_analyzer_blank.
Qed.

(** [<] on the scores is a strict weak order, as on the numbers that are
    not NaN. *)
Hypothesis float_lt_asym : ∀ x y, float_lt x y = true → float_lt y x = false.
Hypothesis float_lt_negtrans :
  ∀ x y z, float_lt x z = true → float_lt x y = true ∨ float_lt y z = true.

(** C4, amended. For every sequence of resumes and every job description
    that has at least one token (a run of two or more word characters),
    [rank_resumes] returns the pairs of a resume and its score in descending
    order of the score, and the pairs whose scores tie are in the order in
    which their resumes were given. *)
Theorem rank_resumes_sorted_stable rs jd σ :
  build_analyzer jd ≠ [] →
  ∃ scores out,
    rank_resumes rs jd σ = (σ ++ scores, Ok out)
    ∧ length scores = length rs
    ∧ out ≡ₚ zip rs scores
    ∧ StronglySorted (λ a b, float_lt a.2 b.2 = false) out
    ∧ ∀ v, filter (λ p, tied float_lt v p.2 = true) out
           = filter (λ p, tied float_lt v p.2 = true) (zip rs scores).
Proof.
  intros H. exists (resume_score jd <$> rs). eexists.
  split; [by apply rank_resumes_ok|].
  split; [by rewrite length_fmap|].
  split; [apply sorted_perm|].
  split; [apply sorted_descending; done|].
  intros v. by apply sorted_stable.
Qed.

(** C10, amended. For every sequence of resumes and every job description
    that has at least one token, [rank_resumes] returns exactly one pair per
    resume: the result is a rearrangement of the resumes paired with their
    scores, it is as long as the input, its resumes are the input's, and it
    is empty for an empty input. *)
Theorem rank_resumes_one_pair_per_resume rs jd σ :
  build_analyzer jd ≠ [] →
  ∃ scores out,
    rank_resumes rs jd σ = (σ ++ scores, Ok out)
    ∧ length scores = length rs
    ∧ out ≡ₚ zip rs scores
    ∧ length out = length rs
    ∧ out.*1 ≡ₚ rs
    ∧ (rs = [] → out = []).
Proof.
  intros H. exists (resume_score jd <$> rs). eexists.
  split; [by apply rank_resumes_ok|].
  assert (length (resume_score jd <$> rs) = length rs) as Hl
    by (by rewrite length_fmap).
  split; [done|]. split; [apply sorted_perm|].
  split; [by rewrite sorted_perm, length_zip, Hl, Nat.min_id|].
  split; [rewrite sorted_perm, fst_zip; [done | lia]|].
  by intros ->.
Qed.

End RankerFacts.

Lemma exact_lower_blank s : forallb is_space s = true → Exact.latin1_lower s = s.
Proof.
  induction s as [|c s IH]; [done|]. simpl.
  intros [Hc Hs]%andb_true_iff. unfold Exact.latin1_lower in *.
  cbn [fmap list_fmap]. rewrite IH by done. f_equal.
  destruct (_ || _) eqn:E; [|done]. chars; lia.
Qed.

Lemma exact_word_not_space c : is_space c = true → Exact.latin1_word c = false.
Proof.
  intros H. unfold Exact.latin1_word. destruct (_ || _) eqn:E; [|done]. chars; lia.
Qed.

Lemma exact_lt_asym x y : Exact.lt x y = true → Exact.lt y x = false.
Proof.
  unfold Exact.lt. rewrite negb_true_iff, negb_false_iff.
  intros H. apply QArith_base.Qle_bool_iff.
  destruct (QArith_base.Qlt_le_dec x y) as [Hlt|Hle].
  - by apply QArith_base.Qlt_le_weak.
  - apply QArith_base.Qle_bool_iff in Hle. congruence.
Qed.

Lemma exact_lt_negtrans x y z :
  Exact.lt x z = true → Exact.lt x y = true ∨ Exact.lt y z = true.
Proof.
  unfold Exact.lt. rewrite !negb_true_iff. intros H.
  assert (QArith_base.Qlt x z) as Hxz.
  { destruct (QArith_base.Qlt_le_dec x z) as [Hlt|Hle]; [done|].
    apply QArith_base.Qle_bool_iff in Hle. congruence. }
  destruct (QArith_base.Qlt_le_dec x y) as [Hlt|Hle].
  - left. destruct (QArith_base.Qle_bool y x) eqn:E; [|done].
    apply QArith_base.Qle_bool_iff in E.
    by apply QArith_base.Qlt_not_le in Hlt.
  - right. destruct (QArith_base.Qle_bool z y) eqn:E; [|done].
    apply QArith_base.Qle_bool_iff in E.
    assert (QArith_base.Qlt y z) as Hyz by (by eapply QArith_base.Qle_lt_trans).
    by apply QArith_base.Qlt_not_le in Hyz.
Qed.

Example exact_rank_scenario :
  Exact.rank_resumes [Exact.resume_b; Exact.resume_a; Exact.resume_c]
    (codepoints "Python SQL developer needed") []
  = ([QArith_base.Qmake 0 1; QArith_base.Qmake 4 8; QArith_base.Qmake 16 32],
     Ok [(Exact.resume_a, QArith_base.Qmake 4 8);
         (Exact.resume_c, QArith_base.Qmake 16 32);
         (Exact.resume_b, QArith_base.Qmake 0 1)]).
Proof. vm_compute. reflexivity. Qed.

(** ** De-duplication of the entities *)






Section ParseFacts.

Variable pdf : Type.
Variable pages : pdf → list text.
Variable nlp : list pattern → text → list entity.
Variable unicode_decimal : N → bool.


End ParseFacts.

Example word_tagger_python_python :
  word_tagger patterns (codepoints "BS Python Python SQL")
  = [Entity (codepoints "BS") "DEGREE"; Entity (codepoints "Python") "SKILL";
     Entity (codepoints "Python") "SKILL"; Entity (codepoints "SQL") "SKILL"].
Proof. vm_compute. reflexivity. Qed.

Example parse_resume_python_python :
  let r := parse_resume (pdf:=unit) (λ _, [codepoints "Python  Python"]) word_tagger
             (λ _, false) () in
  raw_text r = codepoints "Python Python" ∧ skills r = [codepoints "Python"]
  ∧ education r = [] ∧ experience r = [].
Proof. vm_compute. repeat split; reflexivity. Qed.

(** ** The claims at concrete inputs *)

(** C1 at a job description of a space, a tab, a no-break space and a
    space. *)
Lemma rank_resumes_blank_job_description_witness :
  strip [SPACE; 9; 160; SPACE] = []
  ∧ Exact.rank_resumes [Exact.resume_a; Exact.resume_b] [SPACE; 9; 160; SPACE] []
    = ([], Raise (ValueError empty_vocabulary)).
Proof.
  split; [reflexivity|].
  apply (rank_resumes_blank_job_description (R:=Exact.runtime)
           exact_lower_blank exact_word_not_space).
  reflexivity.
Defined.

(** The claim C4 as the spec states it fails: a job description of one
    letter is not empty after trimming, and [rank_resumes] raises on it
    whatever the resumes and the kernels are, instead of returning sorted
    pairs. *)
Lemma rank_resumes_sorted_one_letter_description :
  strip (codepoints "C") = codepoints "C"
  ∧ ∀ (R : Runtime) rs σ,
      rank_resumes rs (codepoints "C") σ = (σ, Raise (ValueError empty_vocabulary)).
Proof.
  split; [reflexivity|]. intros. by apply rank_resumes_raise.
Qed.

(** C4, amended, at the three resumes of the example and a job description
    with four tokens. *)
Lemma rank_resumes_sorted_stable_witness :
  build_analyzer (R:=Exact.runtime)
    (codepoints "Python SQL developer needed") ≠ []
  ∧ ∃ scores out,
      Exact.rank_resumes [Exact.resume_b; Exact.resume_a; Exact.resume_c]
        (codepoints "Python SQL developer needed") [] = ([] ++ scores, Ok out)
      ∧ length scores = 3%nat
      ∧ out ≡ₚ zip [Exact.resume_b; Exact.resume_a; Exact.resume_c] scores
      ∧ StronglySorted (λ a b, Exact.lt a.2 b.2 = false) out
      ∧ ∀ v, filter (λ p, tied Exact.lt v p.2 = true) out
             = filter (λ p, tied Exact.lt v p.2 = true)
                 (zip [Exact.resume_b; Exact.resume_a; Exact.resume_c] scores).
Proof.
  split; [by vm_compute|].
  apply (rank_resumes_sorted_stable (R:=Exact.runtime)
           exact_lt_asym exact_lt_negtrans).
  by vm_compute.
Defined.

(** The claim C10 as the spec states it fails: on the job description
    "R & D", which is not empty after trimming, [rank_resumes] raises and
    returns no pair, whatever the resumes and the kernels are. *)
Lemma rank_resumes_one_pair_short_words :
  strip (codepoints "R & D") = codepoints "R & D"
  ∧ ∀ (R : Runtime) rs σ,
      rank_resumes rs (codepoints "R & D") σ = (σ, Raise (ValueError empty_vocabulary)).
Proof.
  split; [reflexivity|]. intros. by apply rank_resumes_raise.
Qed.

(** C10, amended, at two resumes and a job description with four tokens. *)
Lemma rank_resumes_one_pair_per_resume_witness :
  build_analyzer (R:=Exact.runtime)
    (codepoints "Python SQL developer needed") ≠ []
  ∧ ∃ scores out,
      Exact.rank_resumes [Exact.resume_b; Exact.resume_a]
        (codepoints "Python SQL developer needed") [] = ([] ++ scores, Ok out)
      ∧ length scores = 2%nat
      ∧ out ≡ₚ zip [Exact.resume_b; Exact.resume_a] scores
      ∧ length out = 2%nat
      ∧ out.*1 ≡ₚ [Exact.resume_b; Exact.resume_a]
      ∧ ([Exact.resume_b; Exact.resume_a] = [] → out = []).
Proof.
  split; [by vm_compute|].
  apply (rank_resumes_one_pair_per_resume (R:=Exact.runtime)).
  by vm_compute.
Defined.

(** ** Normalisation *)

Lemma render_gap repl c ps : render repl (re.Gap c :: ps) = c :: render repl ps.
Proof. done. Qed.

Lemma render_hit repl w ps : render repl (re.Hit w :: ps) = repl ++ render repl ps.
Proof. done. Qed.

Lemma sub_forbidden s : re.sub forbidden [] s = filter (λ c, kept c = true) s.
Proof.
  change (re.sub forbidden [] s) with (render [] (re.scan forbidden 0 None s)).
  generalize (@None N) as prev.
  induction s as [|c s IH]; intros prev; [done|].
  rewrite filter_cons.
  assert (re.match_at forbidden prev (c :: s)
          = if kept c then None else Some 1%nat) as Hm.
  { unfold re.match_at, forbidden. cbn [re.m]. destruct (kept c); [done|].
    cbn [negb re.accept length]. f_equal. lia. }
  destruct (kept c) eqn:E.
  - rewrite scan_gap by done. rewrite render_gap, IH. by rewrite decide_True.
  - rewrite (scan_hit _ _ _ _ _ Hm). cbn [take drop].
    rewrite render_hit, IH. rewrite decide_False; [done | congruence].
Qed.

Lemma squeeze_true_lstrip s : squeeze true s = squeeze false (lstrip s).
Proof.
  induction s as [|c s IH]; [done|]. simpl.
  destruct (is_space c) eqn:E; [done|]. simpl. by rewrite E.
Qed.

Lemma star_space_accept s : ∀ prev, re.star is_space re.accept prev s = Some (lstrip s).
Proof.
  induction s as [|c s IH]; intros prev; [done|]. simpl.
  destruct (is_space c); [by rewrite IH | done].
Qed.

Lemma sub_whitespace_run s : re.sub whitespace_run [SPACE] s = squeeze false s.
Proof.
  change (re.sub whitespace_run [SPACE] s)
    with (render [SPACE] (re.scan whitespace_run 0 None s)).
  generalize (@None N) as prev.
  assert (∀ n s, (length s ≤ n)%nat → ∀ prev,
            render [SPACE] (re.scan whitespace_run 0 prev s) = squeeze false s) as H;
    [|by apply (H (length s))].
  clear s. induction n as [|n IH]; intros s Hn prev.
  { destruct s; [done | simpl in Hn; lia]. }
  destruct s as [|c s]; [done|]. simpl in Hn.
  assert (re.match_at whitespace_run prev (c :: s)
          = if is_space c then Some (S (length s - length (lstrip s))) else None)
    as Hm.
  { unfold re.match_at, whitespace_run, re.plus. cbn [re.m].
    destruct (is_space c); [|done]. rewrite star_space_accept.
    pose proof (lstrip_length s). cbn [length]. f_equal. lia. }
  cbn [squeeze]. destruct (is_space c) eqn:E.
  - rewrite (scan_hit _ _ _ _ _ Hm). cbn [drop].
    rewrite render_hit, lstrip_drop, squeeze_true_lstrip. simpl. f_equal.
    apply IH. pose proof (lstrip_length s). lia.
  - rewrite scan_gap by done. rewrite render_gap. f_equal.
    apply IH. lia.
Qed.

Lemma clean_text_eq t :
  _clean_text t = strip (filter (λ c, kept c = true) (squeeze false t)).
Proof. unfold _clean_text. by rewrite sub_whitespace_run, sub_forbidden. Qed.

Lemma squeeze_spaces_only b s :
  Forall (λ c, is_space c = true → c = SPACE) (squeeze b s).
Proof.
  revert b. induction s as [|c s IH]; intros b; simpl; [constructor|].
  destruct (is_space c) eqn:E.
  - destruct b; [apply IH|]. constructor; [done | apply IH].
  - constructor; [congruence | apply IH].
Qed.

Lemma squeeze_kept b s :
  Forall (λ c, kept c = true) s → Forall (λ c, kept c = true) (squeeze b s).
Proof.
  revert b. induction s as [|c s IH]; intros b Hs; simpl; [constructor|].
  apply Forall_cons in Hs as [Hc Hs].
  destruct (is_space c); [destruct b|]; auto.
Qed.

Lemma squeeze_true_head s d : head (squeeze true s) = Some d → is_space d = false.
Proof.
  induction s as [|c s IH]; simpl; [done|].
  destruct (is_space c) eqn:E; [done|]. simpl. by intros [= <-].
Qed.

Lemma single_spaced_cons_cons c d s :
  single_spaced (c :: d :: s)
  = negb (is_space c && is_space d) && single_spaced (d :: s).
Proof. done. Qed.

Lemma squeeze_single_spaced b s : single_spaced (squeeze b s) = true.
Proof.
  revert b. induction s as [|c s IH]; intros b; simpl; [done|].
  destruct (is_space c) eqn:E.
  - destruct b; [apply IH|].
    pose proof (squeeze_true_head s) as Hh. specialize (IH true).
    destruct (squeeze true s) as [|d l]; [done|].
    rewrite single_spaced_cons_cons, IH, (Hh d) by done.
    by rewrite andb_false_r.
  - specialize (IH false). destruct (squeeze false s) as [|d l]; [done|].
    by rewrite single_spaced_cons_cons, IH, E.
Qed.

Lemma single_spaced_cons c s : single_spaced (c :: s) = true → single_spaced s = true.
Proof. simpl. destruct s; [done|]. by intros [_ ?]%andb_true_iff. Qed.

Lemma squeeze_fixed s : ∀ b,
  single_spaced s = true →
  Forall (λ c, is_space c = true → c = SPACE) s →
  (b = true → ∀ c, head s = Some c → is_space c = false) →
  squeeze b s = s.
Proof.
  induction s as [|c s IH]; intros b Hs Ho Hb; [done|].
  apply Forall_cons in Ho as [Hc Ho]. simpl.
  destruct (is_space c) eqn:E.
  - destruct b; [by rewrite (Hb eq_refl c) in E|].
    rewrite Hc by done. f_equal.
    apply IH; [by eapply single_spaced_cons | done |].
    intros _ d Hd. destruct s as [|d' s]; [done|]. simpl in Hd. injection Hd as ->.
    rewrite single_spaced_cons_cons in Hs. apply andb_true_iff in Hs as [Hs _].
    rewrite E in Hs. simpl in Hs. by apply negb_true_iff in Hs.
  - f_equal. apply IH; [by eapply single_spaced_cons | done | done].
Qed.

Lemma single_spaced_app a b :
  single_spaced (a ++ b) = true → single_spaced a = true ∧ single_spaced b = true.
Proof.
  induction a as [|c a IH]; [done|]. intros H.
  destruct (IH (single_spaced_cons _ _ H)) as [Ha Hb]. split; [|done].
  destruct a as [|d a]; [done|].
  cbn [app] in H. rewrite single_spaced_cons_cons in H |- *.
  apply andb_true_iff in H as [H _]. by rewrite H, Ha.
Qed.

Lemma lstrip_suffix s : ∃ a, s = a ++ lstrip s.
Proof.
  induction s as [|c s [a IH]]; [by exists []|]. simpl.
  destruct (is_space c); [|by exists []].
  exists (c :: a). simpl. by f_equal.
Qed.

Lemma rstrip_prefix s : ∃ b, s = rstrip s ++ b.
Proof.
  unfold rstrip. destruct (lstrip_suffix (reverse s)) as [a Ha].
  exists (reverse a). rewrite <- reverse_app, <- Ha. by rewrite reverse_involutive.
Qed.

Lemma strip_infix s : ∃ a b, s = a ++ strip s ++ b.
Proof.
  unfold strip. destruct (lstrip_suffix s) as [a Ha].
  destruct (rstrip_prefix (lstrip s)) as [b Hb].
  exists a, b. by rewrite <- Hb.
Qed.

Lemma strip_Forall (P : N → Prop) s : Forall P s → Forall P (strip s).
Proof.
  destruct (strip_infix s) as (a & b & Hs). intros H. rewrite Hs in H.
  apply Forall_app in H as [_ H]. by apply Forall_app in H as [H _].
Qed.

Lemma strip_single_spaced s : single_spaced s = true → single_spaced (strip s) = true.
Proof.
  destruct (strip_infix s) as (a & b & Hs). intros H. rewrite Hs in H.
  apply single_spaced_app in H as [_ H]. by apply single_spaced_app in H as [H _].
Qed.

Lemma lstrip_head s c : head (lstrip s) = Some c → is_space c = false.
Proof.
  induction s as [|d s IH]; simpl; [done|].
  destruct (is_space d) eqn:E; [done|]. simpl. by intros [= <-].
Qed.

Lemma lstrip_last s c : last (lstrip s) = Some c → last s = Some c.
Proof.
  destruct (lstrip_suffix s) as [a Ha]. intros H. rewrite Ha.
  destruct (lstrip s) as [|d l]; [done|]. by rewrite last_app_cons.
Qed.

Lemma strip_trimmed s : trimmed (strip s).
Proof.
  unfold trimmed, strip, rstrip. split; intros c.
  - rewrite head_reverse. intros H%lstrip_last.
    rewrite last_reverse in H. by apply lstrip_head in H.
  - rewrite last_reverse. apply lstrip_head.
Qed.

Lemma lstrip_fixed s : (∀ c, head s = Some c → is_space c = false) → lstrip s = s.
Proof. destruct s as [|c s]; [done|]. simpl. intros H. by rewrite (H c). Qed.

Lemma trimmed_strip s : trimmed s → strip s = s.
Proof.
  intros [Hh Hl]. unfold strip, rstrip. rewrite (lstrip_fixed s) by done.
  rewrite lstrip_fixed; [apply reverse_involutive|].
  intros c. rewrite head_reverse. apply Hl.
Qed.

Lemma filter_kept_fixed s :
  Forall (λ c, kept c = true) s → filter (λ c, kept c = true) s = s.
Proof.
  induction 1 as [|c s Hc Hs IH]; [done|].
  rewrite filter_cons, decide_True by done. by f_equal.
Qed.

Lemma kept_alphabet c :
  kept c = true → (is_space c = true → c = SPACE) → in_alphabet c = true.
Proof.
  intros Hk Hs. unfold in_alphabet.
  destruct (is_space c) eqn:E.
  - rewrite Hs by done. done.
  - unfold kept in Hk. rewrite E in Hk.
    destruct (is_lower c), (is_upper c), (is_digit c), (c =? PERIOD),
      (c =? HYPHEN), (c =? COMMA); simpl in *; try done.
    all: by rewrite ?orb_true_r.
Qed.

(** The part of the normal form that holds for every input: the result is
    over the alphabet of letters, digits, space, period, comma and hyphen. *)
Lemma clean_text_alphabet t : Forall (λ c, in_alphabet c = true) (_clean_text t).
Proof.
  rewrite clean_text_eq. apply strip_Forall.
  pose proof (squeeze_spaces_only false t) as Ho.
  induction Ho as [|c s Hc Hs IH]; [constructor|].
  rewrite filter_cons. case_decide; [|done].
  constructor; [by apply kept_alphabet | done].
Qed.

(** The result has no white space at either end. *)
Lemma clean_text_trimmed t : trimmed (_clean_text t).
Proof. rewrite clean_text_eq. apply strip_trimmed. Qed.

(** On a text without forbidden characters the normalisation is
    idempotent. *)
Lemma clean_text_idempotent_kept t :
  Forall (λ c, kept c = true) t → _clean_text (_clean_text t) = _clean_text t.
Proof.
  intros Hk. rewrite (clean_text_eq t).
  rewrite (filter_kept_fixed (squeeze false t)) by (by apply squeeze_kept).
  set (y := strip (squeeze false t)).
  assert (single_spaced y = true) as Hy1
    by apply strip_single_spaced, squeeze_single_spaced.
  assert (Forall (λ c, is_space c = true → c = SPACE) y) as Hy2
    by apply strip_Forall, squeeze_spaces_only.
  assert (Forall (λ c, kept c = true) y) as Hy3
    by (by apply strip_Forall, squeeze_kept).
  rewrite clean_text_eq, squeeze_fixed, filter_kept_fixed by done.
  apply trimmed_strip, strip_trimmed.
Qed.

Lemma alphabet_kept c : in_alphabet c = true → kept c = true.
Proof.
  unfold in_alphabet, kept. intros H.
  destruct (c =? SPACE) eqn:Es.
  - apply N.eqb_eq in Es as ->. done.
  - destruct (is_lower c), (is_upper c), (is_digit c), (c =? PERIOD),
      (c =? HYPHEN), (c =? COMMA); simpl in *; try done.
    all: by rewrite ?orb_true_r.
Qed.

(** A second pass reaches a fixed point: normalising three times is
    normalising twice. *)
Lemma clean_text_twice_fixed t :
  _clean_text (_clean_text (_clean_text t)) = _clean_text (_clean_text t).
Proof.
  apply clean_text_idempotent_kept.
  eapply Forall_impl; [apply clean_text_alphabet | apply alphabet_kept].
Qed.

(** C3 at the input "Python & SQL": the ampersand is removed after the runs
    of white space were collapsed, so the two spaces around it meet; the
    result has two spaces in a row.  (It is over the alphabet and trimmed,
    as [clean_text_alphabet] and [clean_text_trimmed] say of every
    result.) *)
Theorem clean_text_leaves_two_spaces :
  _clean_text (codepoints "Python & SQL") = codepoints "Python  SQL"
  ∧ single_spaced (_clean_text (codepoints "Python & SQL")) = false.
Proof. split; reflexivity. Qed.

(** C2 at the input "a @ b": the first pass leaves two spaces in a row, the
    second pass collapses them, so normalising twice is not normalising
    once. *)
Theorem clean_text_second_pass_differs :
  _clean_text (codepoints "a @ b") = codepoints "a  b"
  ∧ _clean_text (_clean_text (codepoints "a @ b")) = codepoints "a b"
  ∧ _clean_text (_clean_text (codepoints "a @ b")) ≠ _clean_text (codepoints "a @ b").
Proof. split; [reflexivity|]. split; [reflexivity|]. by vm_compute. Qed.

(** ** The pattern table *)

(** No phrase of the table of [_add_custom_patterns] is registered twice, so
    the program never has two patterns on one span. *)
Lemma patterns_phrases_distinct : NoDup (phrase <$> patterns).
Proof. apply (bool_decide_unpack _). by vm_compute. Qed.

(** * Further properties of the code *)

(** ** [_clean_text] *)

Lemma squeeze_length b s : (length (squeeze b s) ≤ length s)%nat.
Proof.
  revert b. induction s as [|c s IH]; intros b; simpl; [done|].
  pose proof (IH true). pose proof (IH false).
  destruct (is_space c); [destruct b|]; simpl; lia.
Qed.

Lemma strip_length s : (length (strip s) ≤ length s)%nat.
Proof.
  destruct (strip_infix s) as (a & b & Hs). rewrite Hs at 2.
  rewrite !length_app. lia.
Qed.

Lemma visible_not_space c : visible c = true → is_space c = false.
Proof. unfold visible. by intros [_ ?%negb_true_iff]%andb_true_iff. Qed.

Lemma filter_visible_squeeze b s :
  filter (λ c, visible c = true) (squeeze b s) = filter (λ c, visible c = true) s.
Proof.
  revert b. induction s as [|c s IH]; intros b; simpl; [done|].
  rewrite (filter_cons _ c). destruct (is_space c) eqn:E.
  - rewrite decide_False by (intros H%visible_not_space; congruence).
    destruct b; [apply IH|]. rewrite filter_cons, decide_False; [apply IH|].
    by intros H%visible_not_space.
  - rewrite filter_cons, IH. done.
Qed.

Lemma filter_visible_kept (s : text) :
  filter (λ c, visible c = true) (filter (λ c, kept c = true) s)
  = filter (λ c, visible c = true) s.
Proof.
  induction s as [|c s IH]; [done|]. rewrite !(filter_cons _ c).
  destruct (decide (kept c = true)) as [Hk|Hk].
  - by rewrite filter_cons, IH.
  - rewrite decide_False; [done|]. unfold visible.
    intros [? _]%andb_true_iff. done.
Qed.

Lemma filter_visible_lstrip (s : text) :
  filter (λ c, visible c = true) (lstrip s) = filter (λ c, visible c = true) s.
Proof.
  induction s as [|c s IH]; [done|]. simpl.
  destruct (is_space c) eqn:E; [|done].
  rewrite filter_cons, decide_False; [done|].
  intros H%visible_not_space. congruence.
Qed.

Lemma filter_visible_strip (s : text) :
  filter (λ c, visible c = true) (strip s) = filter (λ c, visible c = true) s.
Proof.
  unfold strip, rstrip.
  rewrite filter_reverse, filter_visible_lstrip, filter_reverse, reverse_involutive.
  apply filter_visible_lstrip.
Qed.

Lemma filter_visible_clean_text t :
  filter (λ c, visible c = true) (_clean_text t) = filter (λ c, visible c = true) t.
Proof.
  by rewrite clean_text_eq, filter_visible_strip, filter_visible_kept,
    filter_visible_squeeze.
Qed.

Lemma alphabet_not_visible c :
  in_alphabet c = true → visible c = false → is_space c = true.
Proof.
  intros Ha Hv. apply alphabet_kept in Ha. unfold visible in Hv.
  rewrite Ha in Hv. simpl in Hv. by apply negb_false_iff in Hv.
Qed.

(** X1. Whatever the input, the result of [_clean_text] is over the
    alphabet of ASCII letters, digits, space, period, comma and hyphen, has
    no white space at either end, and is not longer than the input. *)
Theorem clean_text_normal_form t :
  Forall (λ c, in_alphabet c = true) (_clean_text t)
  ∧ trimmed (_clean_text t)
  ∧ (length (_clean_text t) ≤ length t)%nat.
Proof.
  split; [apply clean_text_alphabet|]. split; [apply clean_text_trimmed|].
  rewrite clean_text_eq.
  etrans; [apply strip_length|]. etrans; [apply length_filter|].
  apply squeeze_length.
Qed.

Lemma filter_nonspace_alphabet (s : text) :
  Forall (λ c, in_alphabet c = true) s →
  filter (λ c, is_space c = false) s = filter (λ c, visible c = true) s.
Proof.
  induction 1 as [|c s Hc _ IH]; [done|].
  rewrite !filter_cons, IH.
  destruct (visible c) eqn:Ev.
  - rewrite (visible_not_space c Ev). by repeat case_decide.
  - rewrite (alphabet_not_visible c Hc Ev). by repeat case_decide.
Qed.

(** X2. Apart from spaces, the result of [_clean_text] is the sequence of
    the ASCII letters, ASCII digits, periods, hyphens and commas of the
    input, in the input's order: none of them is dropped, added or moved,
    and every other character is dropped, the letters and digits outside
    ASCII among them ("Café 2019" gives "Caf 2019").  So the result is
    empty exactly when the input has no ASCII letter, ASCII digit, period,
    hyphen or comma. *)
Theorem clean_text_keeps_visible t :
  filter (λ c, is_space c = false) (_clean_text t)
  = filter (λ c, visible c = true) t
  ∧ filter (λ c, visible c = true) (_clean_text t)
    = filter (λ c, visible c = true) t
  ∧ (_clean_text t = [] ↔ filter (λ c, visible c = true) t = []).
Proof.
  split.
  { rewrite filter_nonspace_alphabet by apply clean_text_alphabet.
    apply filter_visible_clean_text. }
  split; [apply filter_visible_clean_text|].
  rewrite <- filter_visible_clean_text. split; [by intros ->|].
  intros Hv. pose proof (clean_text_alphabet t) as Ha.
  destruct (clean_text_trimmed t) as [Hh _].
  destruct (_clean_text t) as [|c y]; [done|]. exfalso.
  apply Forall_cons in Ha as [Hc _].
  rewrite filter_cons in Hv.
  destruct (decide (visible c = true)) as [?|Hn]; [done|].
  apply not_true_is_false in Hn.
  pose proof (alphabet_not_visible c Hc Hn) as Hs.
  specialize (Hh c eq_refl). congruence.
Qed.

(** The accented letter and the Arabic-Indic digits of a text are dropped
    with its other forbidden characters. *)
Example clean_text_drops_other_letters :
  _clean_text (codepoints "Caf" ++ [233; SPACE; 1634; 1632; 1633; 1641; SPACE]
               ++ codepoints "2019")
  = codepoints "Caf  2019".
Proof. vm_compute. reflexivity. Qed.

(** X3. On a text without forbidden characters the result of [_clean_text]
    has no two white-space characters in a row, and normalising it again
    changes nothing. *)
Theorem clean_text_without_forbidden t :
  Forall (λ c, kept c = true) t →
  single_spaced (_clean_text t) = true
  ∧ _clean_text (_clean_text t) = _clean_text t.
Proof.
  intros Hk. split; [|by apply clean_text_idempotent_kept].
  rewrite clean_text_eq, filter_kept_fixed by (by apply squeeze_kept).
  apply strip_single_spaced, squeeze_single_spaced.
Qed.

(** X3 at a text with tabs, line breaks and runs of spaces. *)
Lemma clean_text_without_forbidden_witness :
  Forall (λ c, kept c = true) ([9; 32] ++ codepoints "B.Sc,  Python   SQL-2019" ++ [10])
  ∧ single_spaced
      (_clean_text ([9; 32] ++ codepoints "B.Sc,  Python   SQL-2019" ++ [10])) = true
  ∧ _clean_text (_clean_text ([9; 32] ++ codepoints "B.Sc,  Python   SQL-2019" ++ [10]))
    = _clean_text ([9; 32] ++ codepoints "B.Sc,  Python   SQL-2019" ++ [10]).
Proof.
  assert (Forall (λ c, kept c = true)
            ([9; 32] ++ codepoints "B.Sc,  Python   SQL-2019" ++ [10])) as H.
  { apply Forall_forall. intros c Hc. apply (bool_decide_unpack _).
    revert c Hc. apply Forall_forall. apply (bool_decide_unpack _). by vm_compute. }
  split; [exact H|]. exact (clean_text_without_forbidden _ H).
Defined.

(** X4. A second pass of [_clean_text] always reaches the normal form: the
    result of normalising twice has no two white-space characters in a row
    and is a fixed point of the normalisation. *)
Theorem clean_text_second_pass_normal t :
  single_spaced (_clean_text (_clean_text t)) = true
  ∧ _clean_text (_clean_text (_clean_text t)) = _clean_text (_clean_text t).
Proof.
  assert (Forall (λ c, kept c = true) (_clean_text t)) as Hk.
  { eapply Forall_impl; [apply clean_text_alphabet | apply alphabet_kept]. }
  split; [|by apply clean_text_idempotent_kept].
  rewrite (clean_text_eq (_clean_text t)),
    filter_kept_fixed by (by apply squeeze_kept).
  apply strip_single_spaced, squeeze_single_spaced.
Qed.

(** ** [rank_resumes] *)

Section RankerMore.

Context {R : Runtime}.

Lemma elem_of_zip_fmap {A B} (f : A → B) (l : list A) x y :
  (x, y) ∈ zip l (f <$> l) → y = f x.
Proof.
  induction l as [|a l IH]; simpl; [by intros ?%not_elem_of_nil|].
  intros [[= -> ->]|H]%elem_of_cons; auto.
Qed.

Lemma rank_resumes_Ok_inv rs jd σ out :
  (rank_resumes rs jd σ).2 = Ok out →
  build_analyzer jd ≠ []
  ∧ out = sorted float_lt snd true (zip rs (resume_score jd <$> rs)).
Proof.
  destruct (build_analyzer jd) as [|t ts] eqn:E.
  - by rewrite rank_resumes_raise.
  - assert (build_analyzer jd ≠ []) as H by (by rewrite E).
    rewrite rank_resumes_ok by done. simpl. by intros [= <-].
Qed.

(** X5. The score that [rank_resumes] pairs with a resume depends on the
    job description and on the resume's [raw_text] only: not on its other
    fields, and not on the other resumes it is ranked with.  Two resumes
    with the same [raw_text] get the same score, also across two calls with
    different batches. *)
Theorem rank_resumes_score_of_raw_text rs1 rs2 jd σ1 σ2 out1 out2 r1 r2 s1 s2 :
  (rank_resumes rs1 jd σ1).2 = Ok out1 →
  (rank_resumes rs2 jd σ2).2 = Ok out2 →
  (r1, s1) ∈ out1 → (r2, s2) ∈ out2 →
  raw_text r1 = raw_text r2 →
  s1 = s2.
Proof.
  intros [_ ->]%rank_resumes_Ok_inv [_ ->]%rank_resumes_Ok_inv H1 H2 Ht.
  rewrite sorted_perm in H1, H2.
  apply elem_of_zip_fmap in H1 as ->. apply elem_of_zip_fmap in H2 as ->.
  unfold resume_score. by rewrite Ht.
Qed.

End RankerMore.

(** X5 at two batches that share the text of one resume under two names. *)
Lemma rank_resumes_score_of_raw_text_witness :
  let jd := codepoints "Python SQL developer needed" in
  let twin := Resume [] [] [] (raw_text Exact.resume_a) (Some (codepoints "twin")) in
  let out1 := [(Exact.resume_a, QArith_base.Qmake 4 8);
               (Exact.resume_b, QArith_base.Qmake 0 1)] in
  let out2 := [(twin, QArith_base.Qmake 4 8)] in
  (Exact.rank_resumes [Exact.resume_b; Exact.resume_a] jd []).2 = Ok out1
  ∧ (Exact.rank_resumes [twin] jd [QArith_base.Qmake 0 1]).2 = Ok out2
  ∧ (Exact.resume_a, QArith_base.Qmake 4 8) ∈ out1
  ∧ (twin, QArith_base.Qmake 4 8) ∈ out2
  ∧ raw_text Exact.resume_a = raw_text twin
  ∧ QArith_base.Qmake 4 8 = QArith_base.Qmake 4 8.
Proof.
  intros jd twin out1 out2.
  assert ((Exact.rank_resumes [Exact.resume_b; Exact.resume_a] jd []).2 = Ok out1)
    as H1 by (vm_compute; reflexivity).
  assert ((Exact.rank_resumes [twin] jd [QArith_base.Qmake 0 1]).2 = Ok out2)
    as H2 by (vm_compute; reflexivity).
  assert ((Exact.resume_a, QArith_base.Qmake 4 8) ∈ out1) as H3 by left.
  assert ((twin, QArith_base.Qmake 4 8) ∈ out2) as H4 by left.
  repeat (split; [done|]).
  exact (rank_resumes_score_of_raw_text (R:=Exact.runtime)
           _ _ _ _ _ _ _ _ _ _ _ H1 H2 H3 H4 eq_refl).
Defined.

(** ** Scores in binary64 *)







Section RankerErrors.

Context {R : Runtime}.

Lemma is_word_ascii_lower c : is_word (ascii_lower c) = is_word c.
Proof.
  unfold ascii_lower. destruct (is_upper c) eqn:E; [|done].
  unfold is_word. rewrite E.
  assert ((c + 32 <? 128) = true) as -> by (apply N.ltb_lt; chars; lia).
  assert ((c <? 128) = true) as -> by (apply N.ltb_lt; chars; lia).
  assert (is_lower (c + 32) = true) as ->; [|by rewrite orb_true_r].
  unfold is_lower. apply andb_true_iff. split; apply N.leb_le; chars; lia.
Qed.

Lemma has_word_pair_cons_cons c d s :
  has_word_pair (c :: d :: s) = (is_word c && is_word d) || has_word_pair (d :: s).
Proof. done. Qed.

Lemma has_word_pair_skip d s :
  is_word d = false → has_word_pair (d :: s) = has_word_pair s.
Proof.
  intros H. destruct s as [|e s]; [done|].
  by rewrite has_word_pair_cons_cons, H.
Qed.

Lemma has_word_pair_lower s : has_word_pair (ascii_lower <$> s) = has_word_pair s.
Proof.
  induction s as [|c s IH]; [done|]. destruct s as [|d s]; [done|].
  cbn [fmap list_fmap] in *.
  by rewrite !has_word_pair_cons_cons, IH, !is_word_ascii_lower.
Qed.

Lemma has_word_pair_cons c s :
  has_word_pair s = true → has_word_pair (c :: s) = true.
Proof.
  destruct s as [|d s]; [done|]. rewrite has_word_pair_cons_cons.
  intros ->. apply orb_true_r.
Qed.

Lemma has_word_pair_suffix s' s :
  suffix s' s → has_word_pair s' = true → has_word_pair s = true.
Proof.
  intros [l ->]. induction l as [|c l IH]; [done|].
  intros H. simpl. apply has_word_pair_cons. auto.
Qed.

Lemma token_match_pair prev s n :
  re.match_at token_pattern prev s = Some n →
  ∃ c d s', s = c :: d :: s' ∧ is_word c = true ∧ is_word d = true.
Proof.
  unfold re.match_at, token_pattern. cbn [re.seq re.m re.plus].
  destruct (xorb _ _); [|done].
  destruct s as [|c [|d s']]; [done| |].
  - destruct (is_word c); done.
  - destruct (is_word c) eqn:Ec; [|done]. destruct (is_word d) eqn:Ed; [|done].
    intros _. by exists c, d, s'.
Qed.

Lemma token_no_match_second prev c d s :
  is_word d = false → re.match_at token_pattern prev (c :: d :: s) = None.
Proof.
  intros H. unfold re.match_at, token_pattern. cbn [re.seq re.m re.plus].
  destruct (xorb _ _); [|done]. destruct (is_word c); [|done]. by rewrite H.
Qed.

Lemma star_word_boundary (k : re.cont) s :
  (∀ prev s, k prev s = re.m (re.Bnd is_word) re.accept prev s) →
  ∀ prev, re.word_at is_word prev = true →
  is_Some (re.star is_word k prev s).
Proof.
  intros Hk. induction s as [|c s IH]; intros prev Hp.
  - cbn [re.star]. rewrite Hk. cbn [re.m head re.word_at]. rewrite Hp. by eexists.
  - cbn [re.star]. destruct (is_word c) eqn:E.
    + destruct (IH (Some c) E) as [x ->]. by eexists.
    + rewrite Hk. cbn [re.m head re.word_at]. rewrite Hp, E. by eexists.
Qed.

Lemma token_pattern_nonempty : nonempty token_pattern = true.
Proof. reflexivity. Qed.

Lemma token_match_at_pair prev c d s :
  re.word_at is_word prev = false → is_word c = true → is_word d = true →
  ∃ n, re.match_at token_pattern prev (c :: d :: s) = Some (S n).
Proof.
  intros Hp Hc Hd.
  assert (is_Some (re.match_at token_pattern prev (c :: d :: s))) as [n Hn].
  { unfold re.match_at, token_pattern. cbn [re.seq re.m re.plus head re.word_at].
    rewrite Hp, Hc, Hd. cbn [xorb].
    match goal with
    | |- context [re.star _ ?k _ _] =>
        destruct (star_word_boundary k s (λ _ _, eq_refl) (Some d) Hd) as [x ->]
    end.
    by eexists. }
  pose proof (match_at_pos _ _ _ _ token_pattern_nonempty Hn).
  destruct n; [lia|]. by exists n.
Qed.

Lemma scan_finds_token s : ∀ prev,
  re.word_at is_word prev = false → has_word_pair s = true →
  re.hits (re.scan token_pattern 0 prev s) ≠ [].
Proof.
  assert (∀ n s, (length s ≤ n)%nat → ∀ prev,
            re.word_at is_word prev = false → has_word_pair s = true →
            re.hits (re.scan token_pattern 0 prev s) ≠ []) as H;
    [|by apply (H (length s))].
  clear s. induction n as [|n IH]; intros s Hn prev Hp Hs.
  { destruct s; [done | simpl in Hn; lia]. }
  destruct s as [|c s]; [done|]. simpl in Hn.
  destruct (is_word c) eqn:Ec.
  - destruct s as [|d s]; [done|]. destruct (is_word d) eqn:Ed.
    + destruct (token_match_at_pair prev c d s Hp Ec Ed) as [k Hk].
      rewrite (scan_hit _ _ _ _ _ Hk). done.
    + rewrite scan_gap by (by apply token_no_match_second).
      rewrite scan_gap by (by apply token_no_match).
      cbn [re.hits omap]. simpl in Hn. apply IH; [lia | done |].
      rewrite has_word_pair_cons_cons, Ed, andb_false_r in Hs.
      by rewrite has_word_pair_skip in Hs.
  - rewrite scan_gap by (by apply token_no_match).
    cbn [re.hits omap]. apply IH; [lia | done |].
    by rewrite has_word_pair_skip in Hs.
Qed.

Lemma build_analyzer_nil doc :
  build_analyzer doc = [] ↔ has_word_pair (str_lower doc) = false.
Proof.
  unfold build_analyzer, re.findall, re.finditer. split.
  - intros H. destruct (has_word_pair (str_lower doc)) eqn:E; [|done].
    by apply (scan_finds_token _ None) in E.
  - intros H. apply scan_no_hit. intros prev' s' Hs.
    destruct (re.match_at token_pattern prev' s') as [n|] eqn:E; [|done].
    apply token_match_pair in E as (c & d & s'' & -> & Hc & Hd).
    assert (has_word_pair (c :: d :: s'') = true) as Hp
      by (by rewrite has_word_pair_cons_cons, Hc, Hd).
    by rewrite (has_word_pair_suffix _ _ Hs Hp) in H.
Qed.

(** X6. On an ASCII job description [rank_resumes] fails exactly when the
    description has no two word characters (letters, digits, underscore) in
    a row: then it raises the [ValueError] of the empty vocabulary before any
    score is computed; otherwise it returns a result, whatever the resumes
    are (none, or resumes with empty text). *)
Theorem rank_resumes_fails_without_word_pair rs jd σ :
  forallb is_ascii jd = true →
  if has_word_pair jd
  then ∃ out, (rank_resumes rs jd σ).2 = Ok out
  else rank_resumes rs jd σ = (σ, Raise (ValueError empty_vocabulary)).
Proof.
  intros Ha.
  assert (has_word_pair (str_lower jd) = has_word_pair jd) as Hl.
  { unfold str_lower. rewrite Ha. apply has_word_pair_lower. }
  destruct (has_word_pair jd) eqn:E.
  - assert (build_analyzer jd ≠ []) as H.
    { intros H%build_analyzer_nil. congruence. }
    rewrite rank_resumes_ok by done. by eexists.
  - apply rank_resumes_raise, build_analyzer_nil. congruence.
Qed.

End RankerErrors.

(** X6 at the job description "R & D, C" and a batch of two resumes. *)
Lemma rank_resumes_fails_without_word_pair_witness :
  forallb is_ascii (codepoints "R & D, C") = true
  ∧ Exact.rank_resumes [Exact.resume_a; Exact.resume_b] (codepoints "R & D, C") []
    = ([], Raise (ValueError empty_vocabulary)).
Proof.
  split; [reflexivity|].
  exact (rank_resumes_fails_without_word_pair (R:=Exact.runtime)
           [Exact.resume_a; Exact.resume_b] (codepoints "R & D, C") [] eq_refl).
Defined.

(** *** The order of the terms *)

Lemma text_ltb_cons x a y b :
  text_ltb (x :: a) (y :: b) = (x <? y) || ((x =? y) && text_ltb a b).
Proof. done. Qed.



Lemma text_ltb_trichotomy a : ∀ b,
  text_ltb a b = false → text_ltb b a = false → a = b.
Proof.
  induction a as [|x a IH]; intros [|y b]; try done.
  rewrite !text_ltb_cons, !orb_false_iff, !andb_false_iff, !N.ltb_ge, !N.eqb_neq.
  intros [? H1] [? H2]. assert (x = y) as -> by lia.
  f_equal. apply IH; tauto.
Qed.



#[local] Instance text_order_antisymm :
  AntiSymm (=) (λ a b : text, text_ltb (id b) (id a) = false).
Proof. intros a b H1 H2. by apply text_ltb_trichotomy. Qed.

(** *** Sorting and projections *)

Section SortedMap.

Context {A B K : Type}.
Variable lt : K → K → bool.
Variable key : A → K.
Variable key' : B → K.
Variable f : A → B.
Hypothesis key_f : ∀ x, key' (f x) = key x.




End SortedMap.

(** *** Bags of tokens *)

Section RankerBags.

Context {R : Runtime}.







End RankerBags.


(** ** What the matcher matches *)

Lemma prev_after_app prev w1 w2 :
  prev_after (prev_after prev w1) w2 = prev_after prev (w1 ++ w2).
Proof. unfold prev_after. rewrite last_app. by destruct (last w2), (last w1). Qed.

Lemma star_sound p k : ∀ s prev x,
  re.star p k prev s = Some x →
  ∃ w s', s = w ++ s' ∧ forallb p w = true ∧ k (prev_after prev w) s' = Some x.
Proof.
  induction s as [|c s IH]; intros prev x; simpl.
  - intros H. by exists [], [].
  - destruct (p c) eqn:Hc.
    + destruct (re.star p k (Some c) s) as [y|] eqn:E.
      * intros [= <-]. destruct (IH _ _ E) as (w & s' & -> & Hw & Hk).
        exists (c :: w), s'. split; [done|]. split; [simpl; by rewrite Hc|].
        by rewrite prev_after_cons.
      * intros H. by exists [], (c :: s).
    + intros H. by exists [], (c :: s).
Qed.

Lemma m_sound r : ∀ k prev s x,
  re.m r k prev s = Some x →
  ∃ w s', s = w ++ s' ∧ matches r prev w s' ∧ k (prev_after prev w) s' = Some x.
Proof.
  induction r as [|p|r1 IH1 r2 IH2|r1 IH1 r2 IH2|p|wd]; intros k prev s x; cbn [re.m].
  - intros H. exists [], s. split; [done|]. split; [constructor | done].
  - destruct s as [|c s]; [done|]. destruct (p c) eqn:Hc; [|done].
    intros H. exists [c], s. split; [done|]. split; [by constructor | done].
  - intros H. destruct (IH1 _ _ _ _ H) as (w1 & s1 & -> & M1 & H1).
    destruct (IH2 _ _ _ _ H1) as (w2 & s2 & -> & M2 & H2).
    exists (w1 ++ w2), s2. split; [by rewrite app_assoc|].
    split; [by constructor | by rewrite <- prev_after_app].
  - destruct (re.m r1 k prev s) as [y|] eqn:E.
    + intros [= <-]. destruct (IH1 _ _ _ _ E) as (w & s' & -> & M & H).
      exists w, s'. split; [done|]. split; [by apply matches_alt_l | done].
    + intros H. destruct (IH2 _ _ _ _ H) as (w & s' & -> & M & H').
      exists w, s'. split; [done|]. split; [by apply matches_alt_r | done].
  - intros H. destruct (star_sound _ _ _ _ _ H) as (w & s' & -> & Hw & Hk).
    exists w, s'. split; [done|]. split; [by constructor | done].
  - destruct (xorb _ _) eqn:E; [|done].
    intros H. exists [], s. split; [done|]. split; [by constructor | done].
Qed.

Lemma star_fallback p k prev s x :
  k prev s = Some x → is_Some (re.star p k prev s).
Proof.
  intros H. destruct s as [|c s]; simpl; [eauto|].
  destruct (p c); [|eauto]. destruct (re.star p k (Some c) s); eauto.
Qed.

Lemma star_complete p k : ∀ w prev s' x,
  forallb p w = true → k (prev_after prev w) s' = Some x →
  is_Some (re.star p k prev (w ++ s')).
Proof.
  induction w as [|c w IH]; intros prev s' x Hw Hk.
  - by apply (star_fallback _ _ _ _ x).
  - simpl in Hw. apply andb_true_iff in Hw as [Hc Hw].
    cbn [app re.star]. rewrite Hc. rewrite prev_after_cons in Hk.
    destruct (IH _ _ _ Hw Hk) as [y ->]. eauto.
Qed.

Lemma m_complete r prev w s' :
  matches r prev w s' →
  ∀ k x, k (prev_after prev w) s' = Some x → is_Some (re.m r k prev (w ++ s')).
Proof.
  induction 1 as [prev rest|p prev c rest Hc|r1 r2 prev w1 w2 rest _ IH1 _ IH2
                 |r1 r2 prev w rest _ IH|r1 r2 prev w rest _ IH
                 |p prev w rest Hw|wd prev rest Hb];
    intros k x Hk; cbn [re.m].
  - eauto.
  - cbn [app]. rewrite Hc. eauto.
  - rewrite <- app_assoc. rewrite <- prev_after_app in Hk.
    destruct (IH2 _ _ Hk) as [y Hy]. exact (IH1 _ _ Hy).
  - destruct (IH _ _ Hk) as [y ->]. eauto.
  - destruct (re.m r1 k prev (w ++ rest)); eauto.
  - by apply (star_complete _ _ _ _ _ x).
  - cbn [app]. rewrite Hb. eauto.
Qed.

Lemma scans_hit_matches r prev s ws :
  scans r prev s ws →
  ∀ w, w ∈ ws → ∃ a b prev', s = a ++ w ++ b ∧ matches r prev' w b.
Proof.
  induction 1 as [prev|prev c s ws Hm Hs IH|prev w0 s ws Hne Hm Hs IH]; intros w Hin.
  - by apply elem_of_nil in Hin.
  - destruct (IH _ Hin) as (a & b & p' & -> & M). by exists (c :: a), b, p'.
  - apply elem_of_cons in Hin as [->|Hin].
    + unfold re.match_at in Hm.
      destruct (re.m r re.accept prev (w0 ++ s)) as [rest|] eqn:E; [|done].
      destruct (m_sound _ _ _ _ _ E) as (w' & s' & Hsplit & M & [= <-]).
      injection Hm as Hlen.
      assert (length w' = length w0) as Hl.
      { apply (f_equal length) in Hsplit. rewrite !length_app in *. lia. }
      symmetry in Hsplit. apply app_inj_1 in Hsplit as [-> ->]; [|done].
      by exists [], s, prev.
    + destruct (IH _ Hin) as (a & b & p' & -> & M).
      exists (w0 ++ a), b, p'. by rewrite <- app_assoc.
Qed.

Lemma finditer_matches r t w :
  nonempty r = true → w ∈ re.finditer r t →
  ∃ a b prev, t = a ++ w ++ b ∧ matches r prev w b.
Proof.
  intros Hr Hin. by apply (scans_hit_matches r None t _ (finditer_scans r Hr t None)).
Qed.

Lemma scan_finds r e b :
  nonempty r = true → (∀ prev, is_Some (re.match_at r prev (e ++ b))) →
  ∀ a prev, re.hits (re.scan r 0 prev (a ++ e ++ b)) ≠ [].
Proof.
  intros Hr He.
  assert (∀ n a, (length a ≤ n)%nat → ∀ prev,
            re.hits (re.scan r 0 prev (a ++ e ++ b)) ≠ []) as H;
    [|intros a; by apply (H (length a))].
  assert (∀ prev s, is_Some (re.match_at r prev s) →
            re.hits (re.scan r 0 prev s) ≠ []) as Hhit.
  { intros prev s [n Hn]. pose proof (match_at_pos _ _ _ _ Hr Hn).
    pose proof (match_at_le _ _ _ _ Hn). destruct n as [|n]; [lia|].
    destruct s as [|c s]; [simpl in *; lia|].
    by rewrite (scan_hit _ _ _ _ _ Hn). }
  induction n as [|n IH]; intros a Ha prev.
  - destruct a; [|simpl in Ha; lia]. by apply Hhit.
  - destruct a as [|c a]; [by apply Hhit|]. cbn [app].
    destruct (re.match_at r prev (c :: a ++ e ++ b)) as [k|] eqn:E.
    + apply Hhit. by rewrite E.
    + rewrite (scan_gap _ _ _ _ E). cbn [re.hits omap].
      apply IH. simpl in Ha. lia.
Qed.

(** ** The date-range pattern *)

Lemma ispells_length w : ∀ s, ispells w s = true → length s = length w.
Proof.
  induction w as [|p w IH]; intros [|c s]; simpl; try done.
  intros [_ H]%andb_true_iff. f_equal. by apply IH.
Qed.

Lemma matches_ilit_chars l : ∀ prev s rest,
  matches (re.seq ((λ p, re.Chr (ichar p)) <$> l)) prev s rest ↔ ispells l s = true.
Proof.
  induction l as [|p l IH]; intros prev s rest.
  - simpl. split.
    + intros H. inversion H. done.
    + destruct s; [constructor | done].
  - destruct l as [|p' l].
    + cbn [fmap list_fmap re.seq]. split.
      * intros H. inversion H as [|q pv c r Hc| | | | |]; subst. simpl. by rewrite Hc.
      * destruct s as [|c [|d s]]; simpl; try done.
        -- rewrite andb_true_r. intros Hc. by constructor.
        -- rewrite andb_false_r. done.
    + change (re.seq ((λ p0, re.Chr (ichar p0)) <$> p :: p' :: l))
        with (re.Cat (re.Chr (ichar p)) (re.seq ((λ p0, re.Chr (ichar p0)) <$> p' :: l))).
      split.
      * intros H. inversion H as [| |r1 r2 pv w1 w2 r M1 M2| | | |]; subst.
        inversion M1 as [|q pv c r Hc| | | | |]; subst.
        apply IH in M2. change ([c] ++ w2) with (c :: w2).
        change (ichar p c && ispells (p' :: l) w2 = true). by rewrite Hc, M2.
      * destruct s as [|c s]; [done|].
        change (ichar p c && ispells (p' :: l) s = true →
                matches (re.Cat (re.Chr (ichar p))
                           (re.seq ((λ p0, re.Chr (ichar p0)) <$> p' :: l)))
                  prev ([c] ++ s) rest).
        intros [Hc Hs]%andb_true_iff.
        apply (matches_cat _ _ prev [c] s); [by constructor | by apply IH].
Qed.

Lemma matches_ilit w prev s rest :
  matches (ilit w) prev s rest ↔ ispells (codepoints w) s = true.
Proof. apply matches_ilit_chars. Qed.

Lemma matches_alts rs : ∀ prev s rest,
  matches (re.alts rs) prev s rest ↔ ∃ r, r ∈ rs ∧ matches r prev s rest.
Proof.
  induction rs as [|r rs IH]; intros prev s rest.
  - simpl. split.
    + intros H. inversion H. done.
    + intros (r & Hin & _). by apply elem_of_nil in Hin.
  - destruct rs as [|r' rs].
    + simpl. split.
      * intros H. exists r. split; [left | done].
      * intros (r0 & Hin & H). apply list_elem_of_singleton in Hin. by subst.
    + change (re.alts (r :: r' :: rs)) with (re.Alt r (re.alts (r' :: rs))).
      split.
      * intros H. inversion H as [| | |r1 r2 pv w rt M|r1 r2 pv w rt M| |]; subst.
        -- exists r. split; [left | done].
        -- apply IH in M as (r0 & Hin & M). exists r0. split; [by right | done].
      * intros (r0 & Hin & M). apply elem_of_cons in Hin as [->|Hin].
        -- by apply matches_alt_l.
        -- apply matches_alt_r, IH. by exists r0.
Qed.

Lemma matches_month prev s rest : matches month prev s rest ↔ is_month s = true.
Proof.
  unfold month, is_month. rewrite matches_alts. split.
  - intros (r & Hin & M). apply list_elem_of_fmap in Hin as (w & -> & Hw).
    apply existsb_exists. exists w. split; [by apply list_elem_of_In|].
    by apply matches_ilit in M.
  - intros (w & Hw & H)%existsb_exists. exists (ilit w). split.
    + apply list_elem_of_fmap. exists w. split; [done | by apply list_elem_of_In].
    + by apply matches_ilit.
Qed.

Lemma matches_month_year ud prev s rest :
  matches (month_year ud) prev s rest ↔ is_month_year ud s.
Proof.
  unfold month_year. cbn [re.seq]. split.
  - intros H.
    inversion H as [| |? ? ? mo w1 ? Mmo M1| | | |]; subst.
    inversion M1 as [| |? ? ? fill w2 ? Mfill M2| | | |]; subst.
    inversion M2 as [| |? ? ? y1 w3 ? My1 M3| | | |]; subst.
    inversion M3 as [| |? ? ? y2 w4 ? My2 M4| | | |]; subst.
    inversion M4 as [| |? ? ? y3 y4 ? My3 My4| | | |]; subst.
    inversion Mfill as [| | | | |? ? ? ? Hfill|]; subst.
    inversion My1 as [|? ? c1 ? H1| | | | |]; subst.
    inversion My2 as [|? ? c2 ? H2| | | | |]; subst.
    inversion My3 as [|? ? c3 ? H3| | | | |]; subst.
    inversion My4 as [|? ? c4 ? H4| | | | |]; subst.
    exists mo, fill, [c1; c2; c3; c4].
    split; [done|]. split; [by apply matches_month in Mmo|].
    split; [done|]. split; [done|]. simpl. by rewrite H1, H2, H3, H4.
  - intros (mo & fill & yr & -> & Hmo & Hfill & Hlen & Hyr).
    destruct yr as [|c1 [|c2 [|c3 [|c4 [|]]]]]; try done.
    simpl in Hyr. rewrite !andb_true_iff in Hyr.
    destruct Hyr as (H1 & H2 & H3 & H4 & _).
    apply matches_cat; [by apply matches_month|].
    apply matches_cat; [by constructor|].
    apply (matches_cat _ _ _ [c1] [c2; c3; c4]); [by constructor|].
    apply (matches_cat _ _ _ [c2] [c3; c4]); [by constructor|].
    apply (matches_cat _ _ _ [c3] [c4]); by constructor.
Qed.

Lemma matches_date_range ud prev s rest :
  matches (experience_pattern ud) prev s rest ↔ is_date_range ud s.
Proof.
  unfold experience_pattern, re.plus.
  change (re.seq [month_year ud; re.Cat (re.Chr range_sep) (re.Star range_sep);
                  re.Alt (ilit "present") (month_year ud)])
    with (re.Cat (month_year ud)
            (re.Cat (re.Cat (re.Chr range_sep) (re.Star range_sep))
               (re.Alt (ilit "present") (month_year ud)))).
  split.
  - intros H.
    inversion H as [| |? ? ? a w1 ? Ma M1| | | |]; subst.
    inversion M1 as [| |? ? ? sep b ? Msep Mb| | | |]; subst.
    inversion Msep as [| |? ? ? s1 s2 ? Ms1 Ms2| | | |]; subst.
    inversion Ms1 as [|? ? c ? Hc| | | | |]; subst.
    inversion Ms2 as [| | | | |? ? ? ? Hs2|]; subst.
    exists a, ([c] ++ s2), b.
    split; [done|]. split; [by apply matches_month_year in Ma|].
    split; [done|]. split; [simpl; by rewrite Hc|].
    inversion Mb as [| | |? ? ? ? ? M|? ? ? ? ? M| |]; subst.
    + left. by apply matches_ilit in M.
    + right. by apply matches_month_year in M.
  - intros (a & sep & b & -> & Ha & Hne & Hsep & Hb).
    destruct sep as [|c sep]; [done|].
    simpl in Hsep. apply andb_true_iff in Hsep as [Hc Hsep].
    apply matches_cat; [by apply matches_month_year|].
    apply matches_cat.
    + apply (matches_cat _ _ _ [c] sep); by constructor.
    + destruct Hb as [Hb|Hb].
      * by apply matches_alt_l, matches_ilit.
      * by apply matches_alt_r, matches_month_year.
Qed.

Lemma finditer_date_range ud t w :
  w ∈ re.finditer (experience_pattern ud) t →
  is_date_range ud w ∧ ∃ a b, t = a ++ w ++ b.
Proof.
  intros H. apply finditer_matches in H as (a & b & prev & -> & M); [|done].
  split; [by apply matches_date_range in M | by exists a, b].
Qed.

(** ** The entries of [_extract_experience] *)

Lemma ichar_not_space p c :
  is_lower (ascii_lower p) = true → ichar p c = true → is_space c = false.
Proof.
  unfold ichar. generalize (ascii_lower p). intros l Hl H.
  destruct (is_space c) eqn:E; [|done]. chars; lia.
Qed.

Lemma ispells_not_space l : ∀ s,
  forallb (λ p, is_lower (ascii_lower p)) l = true → ispells l s = true →
  Forall (λ c, is_space c = false) s.
Proof.
  induction l as [|p l IH]; intros [|c s]; simpl; try done.
  intros [Hp Hl]%andb_true_iff [Hc Hs]%andb_true_iff.
  constructor; [by apply (ichar_not_space p) | by apply IH].
Qed.

Lemma is_month_head mo :
  is_month mo = true → ∃ c mo', mo = c :: mo' ∧ is_space c = false.
Proof.
  intros (w & Hw & H)%existsb_exists.
  assert (forallb (λ p, is_lower (ascii_lower p)) (codepoints w) = true
          ∧ length (codepoints w) = 3%nat) as [Hl Hn].
  { simpl in Hw. repeat (destruct Hw as [<-|Hw]; [by vm_compute|]). done. }
  pose proof (ispells_length _ _ H) as Hlen. rewrite Hn in Hlen.
  apply ispells_not_space in H; [|done].
  destruct mo as [|c mo']; [done|]. apply Forall_cons in H as [Hc _]. by exists c, mo'.
Qed.

Lemma decimal_not_space ud c :
  (∀ c, ud c = true → is_space c = false) →
  decimal ud c = true → is_space c = false.
Proof.
  intros Hud. unfold decimal. destruct (c <? 128) eqn:E; [|apply Hud].
  intros H. destruct (is_space c) eqn:Es; [|done]. chars; lia.
Qed.

Lemma last_app_nonempty {A} (l1 l2 : list A) : l2 ≠ [] → last (l1 ++ l2) = last l2.
Proof.
  intros H. rewrite last_app. destruct (last l2) eqn:E; [done|].
  by apply last_None in E.
Qed.

Lemma month_year_last ud s :
  (∀ c, ud c = true → is_space c = false) → is_month_year ud s →
  ∃ c, last s = Some c ∧ is_space c = false.
Proof.
  intros Hud (mo & fill & yr & -> & _ & _ & Hlen & Hyr).
  destruct yr as [|c1 [|c2 [|c3 [|c4 [|]]]]]; try done.
  exists c4.
  replace (mo ++ fill ++ [c1; c2; c3; c4]) with ((mo ++ fill ++ [c1; c2; c3]) ++ [c4])
    by (by rewrite <- !app_assoc).
  rewrite last_snoc. split; [done|].
  simpl in Hyr. rewrite !andb_true_iff in Hyr. destruct Hyr as (_ & _ & _ & H4 & _).
  by apply (decimal_not_space ud).
Qed.

Lemma present_last b :
  is_present b = true → ∃ c, last b = Some c ∧ is_space c = false.
Proof.
  unfold is_present. intros H. pose proof (ispells_length _ _ H) as Hlen.
  apply ispells_not_space in H; [|done].
  destruct (last b) as [c|] eqn:E.
  - exists c. split; [done|]. apply last_Some in E as [l' ->].
    apply Forall_app in H as [_ H]. by apply Forall_cons in H as [H _].
  - apply last_None in E. by subst.
Qed.

Lemma date_range_trimmed ud w :
  (∀ c, ud c = true → is_space c = false) → is_date_range ud w → trimmed w.
Proof.
  intros Hud (a & sep & b & -> & Ha & _ & _ & Hb). split; intros c.
  - destruct Ha as (mo & fill & yr & -> & Hmo & _).
    apply is_month_head in Hmo as (c0 & mo' & -> & Hc0). simpl. by intros [= <-].
  - assert (∃ c, last b = Some c ∧ is_space c = false) as (d & Hd & Hs).
    { destruct Hb as [Hb|Hb]; [by apply present_last | by apply (month_year_last ud)]. }
    assert (b ≠ []) as Hne by (intros ->; done).
    rewrite app_assoc, last_app_nonempty by done. rewrite Hd. by intros [= <-].
Qed.

Lemma fmap_fixed {A} (f : A → A) (l : list A) :
  (∀ x, x ∈ l → f x = x) → f <$> l = l.
Proof.
  induction l as [|x l IH]; intros H; [done|]. cbn [fmap list_fmap].
  rewrite (H x) by left. f_equal. apply IH. intros y Hy. apply H. by right.
Qed.

Lemma date_range_match ud e b prev :
  is_date_range ud e → is_Some (re.match_at (experience_pattern ud) prev (e ++ b)).
Proof.
  intros H. apply (matches_date_range ud prev e b) in H.
  destruct (m_complete _ _ _ _ H re.accept b eq_refl) as [y Hy].
  unfold re.match_at. rewrite Hy. eauto.
Qed.

(** X8. Provided no decimal digit of the interpreter's table is white
    space, every entry that [_extract_experience] returns is a date range
    (a month token in any letter case, then letters, white space, hyphens
    and commas, then four digits; then white space and dashes; then the
    word "present" in any letter case or a second month and year), has no
    white space at either end, and stands in the text as it is returned.
    The call of [strip] changes no match. *)
Theorem extract_experience_date_ranges (unicode_decimal : N → bool) (t : text) :
  (∀ c, unicode_decimal c = true → is_space c = false) →
  _extract_experience unicode_decimal t
  = re.finditer (experience_pattern unicode_decimal) t
  ∧ ∀ e, e ∈ _extract_experience unicode_decimal t →
         is_date_range unicode_decimal e ∧ trimmed e ∧ ∃ a b, t = a ++ e ++ b.
Proof.
  intros Hud.
  assert (_extract_experience unicode_decimal t
          = re.finditer (experience_pattern unicode_decimal) t) as Heq.
  { unfold _extract_experience. apply fmap_fixed. intros w Hw.
    apply finditer_date_range in Hw as [Hw _].
    by apply trimmed_strip, (date_range_trimmed unicode_decimal). }
  split; [done|]. rewrite Heq. intros e He.
  apply finditer_date_range in He as [Hd Hin].
  split; [done|]. split; [by apply (date_range_trimmed unicode_decimal) | done].
Qed.

(** X9. [_extract_experience] returns at least one entry exactly when a
    date range stands somewhere in the text. *)
Theorem extract_experience_finds_date_range (unicode_decimal : N → bool) (t : text) :
  (∃ e, e ∈ _extract_experience unicode_decimal t)
  ↔ (∃ a e b, t = a ++ e ++ b ∧ is_date_range unicode_decimal e).
Proof.
  unfold _extract_experience. split.
  - intros (e & He). apply list_elem_of_fmap in He as (w & -> & Hw).
    apply finditer_date_range in Hw as [Hd (a & b & ->)]. by exists a, w, b.
  - intros (a & e & b & -> & He).
    pose proof (scan_finds (experience_pattern unicode_decimal) e b eq_refl
                  (λ prev, date_range_match _ e b prev He) a None) as H.
    unfold re.finditer.
    destruct (re.hits _) as [|w ws]; [done|].
    exists (strip w). cbn [fmap list_fmap]. left.
Qed.

Lemma arabic_indic_not_space c : arabic_indic_digit c = true → is_space c = false.
Proof.
  unfold arabic_indic_digit. intros H. destruct (is_space c) eqn:E; [|done].
  chars; lia.
Qed.

(** A text with a range that ends in "present" and a range with a year in
    Arabic-Indic digits and an en dash. *)
Example extract_experience_two_ranges :
  _extract_experience arabic_indic_digit
    (codepoints "Intern, Sept 2019 - present; then mar " ++ [1634; 1632; 1634; 1632]
     ++ [SPACE; EN_DASH; SPACE] ++ codepoints "April 2021.")
  = [codepoints "Sept 2019 - present";
     codepoints "mar " ++ [1634; 1632; 1634; 1632] ++ [SPACE; EN_DASH; SPACE]
     ++ codepoints "April 2021"].
Proof. vm_compute. reflexivity. Qed.

(** X8 at that text, with the Arabic-Indic digits as the digits beyond
    ASCII. *)
Lemma extract_experience_date_ranges_witness :
  let t := codepoints "Intern, Sept 2019 - present; then mar "
           ++ [1634; 1632; 1634; 1632] ++ [SPACE; EN_DASH; SPACE]
           ++ codepoints "April 2021." in
  (∀ c, arabic_indic_digit c = true → is_space c = false)
  ∧ _extract_experience arabic_indic_digit t
    = re.finditer (experience_pattern arabic_indic_digit) t
  ∧ ∀ e, e ∈ _extract_experience arabic_indic_digit t →
         is_date_range arabic_indic_digit e ∧ trimmed e ∧ ∃ a b, t = a ++ e ++ b.
Proof.
  intros t. split; [exact arabic_indic_not_space|].
  exact (extract_experience_date_ranges arabic_indic_digit t arabic_indic_not_space).
Defined.

(** ** The record that [parse_resume] builds *)

Lemma alphabet_ascii c : in_alphabet c = true → (c <? 128) = true.
Proof. unfold in_alphabet. intros H. apply N.ltb_lt. chars; lia. Qed.

Lemma month_year_ascii ud s :
  Forall (λ c, in_alphabet c = true) s → is_month_year ud s →
  is_month_year (λ _, false) s.
Proof.
  intros Hs (mo & fill & yr & -> & Hmo & Hfill & Hlen & Hyr).
  exists mo, fill, yr. repeat (split; [done|]).
  rewrite !Forall_app in Hs. destruct Hs as (_ & _ & Hs).
  rewrite forallb_forall in Hyr. apply forallb_forall. intros c Hc.
  specialize (Hyr c Hc). apply list_elem_of_In in Hc.
  rewrite Forall_forall in Hs. specialize (Hs c Hc). apply alphabet_ascii in Hs.
  unfold decimal in *. by rewrite Hs in *.
Qed.

Lemma date_range_ascii ud s :
  Forall (λ c, in_alphabet c = true) s → is_date_range ud s →
  is_date_range (λ _, false) s.
Proof.
  intros Hs (a & sep & b & -> & Ha & Hne & Hsep & Hb).
  rewrite !Forall_app in Hs. destruct Hs as (Hsa & _ & Hsb).
  exists a, sep, b. split; [done|]. split; [by apply (month_year_ascii ud)|].
  split; [done|]. split; [done|].
  destruct Hb as [Hb|Hb]; [by left | right; by apply (month_year_ascii ud)].
Qed.

Lemma filter_visible_join_lines ps :
  filter (λ c, visible c = true) (join_lines ps)
  = mjoin (filter (λ c, visible c = true) <$> ps).
Proof.
  induction ps as [|p ps IH]; [done|]. destruct ps as [|p' ps].
  - simpl. by rewrite app_nil_r.
  - change (join_lines (p :: p' :: ps)) with (p ++ NEWLINE :: join_lines (p' :: ps)).
    rewrite filter_app, filter_cons_False by (by vm_compute). rewrite IH. done.
Qed.

Lemma mjoin_fmap_cons {A B} (f : A → list B) (x : A) (l : list A) :
  mjoin (f <$> x :: l) = f x ++ mjoin (f <$> l).
Proof. done. Qed.

Section ParseMore.

Context {pdf : Type}.
Variable pages : pdf → list text.
Variable nlp : list pattern → text → list entity.
Variable unicode_decimal : N → bool.

(** X10. Every experience entry of a parsed resume stands in its
    [raw_text] as it is returned, is a date range whose digits are ASCII
    digits, and is written with ASCII letters, digits, spaces, periods,
    commas and hyphens only: the normalisation has removed every other
    character, the en dash of the pattern among them, before the pattern is
    run. *)
Theorem parse_resume_experience_in_raw_text (pdf_path : pdf) (e : text) :
  e ∈ experience (parse_resume pages nlp unicode_decimal pdf_path) →
  (∃ a b, raw_text (parse_resume pages nlp unicode_decimal pdf_path) = a ++ e ++ b)
  ∧ is_date_range (λ _, false) e
  ∧ Forall (λ c, in_alphabet c = true) e.
Proof.
  unfold parse_resume. cbn [experience raw_text].
  set (t := _clean_text (extract_text pages pdf_path)).
  pose proof (clean_text_alphabet (extract_text pages pdf_path)) as Ht. fold t in Ht.
  unfold _extract_experience. intros (w & -> & Hw)%list_elem_of_fmap.
  apply finditer_date_range in Hw as [Hd (a & b & Hab)].
  assert (Forall (λ c, in_alphabet c = true) w) as Hwa.
  { rewrite Hab in Ht. rewrite !Forall_app in Ht. by destruct Ht as (_ & ? & _). }
  apply (date_range_ascii _ _ Hwa) in Hd.
  rewrite (trimmed_strip w) by (by apply (date_range_trimmed (λ _, false))).
  split; [by exists a, b | done].
Qed.

(** X11. Apart from spaces, the [raw_text] of a parsed resume is the
    sequence of the ASCII letters, ASCII digits, periods, commas and
    hyphens of the pages, page after page in their order: none of them is
    dropped, added or moved, and every other character of the pages is
    dropped, the letters and digits outside ASCII among them.  Its spaces
    are the character U+0020, none at either end; and it is empty exactly
    when no page has an ASCII letter, ASCII digit, period, comma or
    hyphen. *)
Theorem parse_resume_raw_text (pdf_path : pdf) :
  filter (λ c, is_space c = false)
    (raw_text (parse_resume pages nlp unicode_decimal pdf_path))
  = mjoin (filter (λ c, visible c = true) <$> pages pdf_path)
  ∧ filter (λ c, visible c = true)
      (raw_text (parse_resume pages nlp unicode_decimal pdf_path))
    = mjoin (filter (λ c, visible c = true) <$> pages pdf_path)
  ∧ Forall (λ c, in_alphabet c = true)
      (raw_text (parse_resume pages nlp unicode_decimal pdf_path))
  ∧ trimmed (raw_text (parse_resume pages nlp unicode_decimal pdf_path))
  ∧ (raw_text (parse_resume pages nlp unicode_decimal pdf_path) = []
     ↔ Forall (λ p, Forall (λ c, visible c = false) p) (pages pdf_path)).
Proof.
  unfold parse_resume. cbn [raw_text]. unfold extract_text.
  assert (filter (λ c, visible c = true) (_clean_text (join_lines (pages pdf_path)))
          = mjoin (filter (λ c, visible c = true) <$> pages pdf_path)) as Hv.
  { by rewrite filter_visible_clean_text, filter_visible_join_lines. }
  split.
  { rewrite filter_nonspace_alphabet by apply clean_text_alphabet. exact Hv. }
  split; [done|]. split; [apply clean_text_alphabet|].
  split; [apply clean_text_trimmed|].
  split.
  - intros H. rewrite H in Hv. clear H.
    induction (pages pdf_path) as [|p ps IH]; [constructor|].
    rewrite mjoin_fmap_cons in Hv. symmetry in Hv.
    apply app_eq_nil in Hv as [Hp Hps]. constructor; [|by apply IH].
    apply Forall_forall. intros c Hc. destruct (visible c) eqn:E; [|done].
    assert (c ∈ filter (λ c, visible c = true) p) as Hin by (by apply list_elem_of_filter).
    rewrite Hp in Hin. by apply elem_of_nil in Hin.
  - intros H.
    assert (mjoin (filter (λ c, visible c = true) <$> pages pdf_path) = []) as Hnil.
    { clear Hv. induction H as [|p ps Hp _ IH]; [done|].
      rewrite mjoin_fmap_cons, IH, app_nil_r.
      induction Hp as [|c p Hc _ IHp]; [done|].
      rewrite filter_cons_False by congruence. done. }
    rewrite Hnil in Hv.
    destruct (_clean_text (join_lines (pages pdf_path))) as [|c s] eqn:E; [done|].
    pose proof (clean_text_alphabet (join_lines (pages pdf_path))) as Ha.
    pose proof (clean_text_trimmed (join_lines (pages pdf_path))) as [Hh _].
    rewrite E in Ha, Hh. apply Forall_cons in Ha as [Ha _].
    specialize (Hh c eq_refl).
    destruct (visible c) eqn:Evis.
    + rewrite filter_cons_True in Hv by done. done.
    + apply alphabet_not_visible in Evis; [|done]. congruence.
Qed.

End ParseMore.

(** X10 at a resume of two pages, read with the stand-in tagger. *)
Lemma parse_resume_experience_in_raw_text_witness :
  let pages := λ _ : unit,
    [codepoints "SQL developer (Jan 2019 "; [EN_DASH] ++ codepoints " Present)"] in
  codepoints "Jan 2019  Present"
    ∈ experience (parse_resume pages word_tagger arabic_indic_digit ())
  ∧ (∃ a b, raw_text (parse_resume pages word_tagger arabic_indic_digit ())
            = a ++ codepoints "Jan 2019  Present" ++ b)
  ∧ is_date_range (λ _, false) (codepoints "Jan 2019  Present")
  ∧ Forall (λ c, in_alphabet c = true) (codepoints "Jan 2019  Present").
Proof.
  intros pages.
  assert (codepoints "Jan 2019  Present"
            ∈ experience (parse_resume pages word_tagger arabic_indic_digit ())) as H.
  { vm_compute. left. }
  split; [exact H|].
  exact (parse_resume_experience_in_raw_text pages word_tagger arabic_indic_digit () _ H).
Defined.

(** ** A run of [main] *)

Section MainFacts.

Context {R : Runtime} {L : Libraries}.

Lemma ascii_space_not_word c :
  is_ascii c = true → is_space c = true → is_word c = false.
Proof.
  unfold is_word, is_ascii. intros -> Hs.
  destruct (_ || _) eqn:E; [|done]. chars; lia.
Qed.

Lemma has_word_pair_blank s :
  forallb is_ascii s = true → forallb is_space s = true → has_word_pair s = false.
Proof.
  induction s as [|c s IH]; [done|]. destruct s as [|d s]; [done|].
  intros [Hc Ha]%andb_true_iff [Hs Hb]%andb_true_iff.
  rewrite has_word_pair_cons_cons, (ascii_space_not_word c) by done. by apply IH.
Qed.

Lemma has_word_pair_strip jd :
  forallb is_ascii jd = true → has_word_pair jd = true → strip jd ≠ [].
Proof.
  intros Ha Hp Hs%strip_nil_inv. by rewrite has_word_pair_blank in Hp.
Qed.

Lemma build_analyzer_ascii jd :
  forallb is_ascii jd = true →
  (build_analyzer jd = [] ↔ has_word_pair jd = false).
Proof.
  intros Ha. rewrite build_analyzer_nil. unfold str_lower. rewrite Ha.
  by rewrite has_word_pair_lower.
Qed.

Lemma mapM_lines (l : list (nat * (resume * float64))) : ∀ σ,
  mapM (λ '(idx, (r, score)), emit (st.markdown (ranking_line idx r score))) l σ
  = (σ ++ ((λ '(idx, (r, score)), st.markdown (ranking_line idx r score)) <$> l),
     Ok ((λ _, tt) <$> l)).
Proof.
  induction l as [|[idx [r score]] l IH]; intros σ; simpl.
  - by rewrite app_nil_r.
  - unfold mbind, M_bind, emit at 1. rewrite IH.
    unfold mret, M_ret. by rewrite <- app_assoc.
Qed.

Lemma ranking_results_blank rs jd σ :
  strip jd = [] → ranking_results rs jd σ = (σ, Ok tt).
Proof. intros H. unfold ranking_results. by rewrite H. Qed.

Lemma ranking_results_raise rs jd σ :
  strip jd ≠ [] → build_analyzer jd = [] →
  ranking_results rs jd σ = (σ, Raise (ValueError empty_vocabulary)).
Proof.
  intros Hs Hb. unfold ranking_results. destruct (strip jd); [done|].
  unfold mbind at 1, M_bind at 1, within. by rewrite rank_resumes_raise.
Qed.

Lemma ranking_results_ok rs jd σ :
  strip jd ≠ [] → build_analyzer jd ≠ [] →
  ranking_results rs jd σ
  = (σ ++ st.subheader (codepoints "Ranking Results")
       :: ((λ '(idx, (r, score)), st.markdown (ranking_line idx r score))
             <$> enumerate 1 (sorted float_lt snd true (zip rs (resume_score jd <$> rs)))),
     Ok tt).
Proof.
  intros Hs Hb. unfold ranking_results. destruct (strip jd); [done|].
  unfold mbind at 1, M_bind at 1, within. rewrite rank_resumes_ok by done.
  cbn [snd]. unfold mbind at 1, M_bind at 1, emit at 1.
  unfold mbind at 1, M_bind at 1. rewrite mapM_lines.
  unfold mret, M_ret. by rewrite <- app_assoc.
Qed.

Lemma bind_run {S A B} (m : M S A) (f : A → M S B) (σ : S) :
  (m ≫= f) σ
  = match m σ with
    | (σ', Ok a) => f a σ'
    | (σ', Raise e) => (σ', Raise e)
    end.
Proof. done. Qed.

Lemma parse_upload_state f (σ σ' : list st.call) :
  parse_upload f σ = (σ, (parse_upload f σ').2).
Proof. unfold parse_upload, raise. by destruct (read_copy f). Qed.

Lemma mapM_parse_upload files : ∀ σ σ' : list st.call,
  mapM parse_upload files σ = (σ, (mapM parse_upload files σ').2).
Proof.
  induction files as [|f files IH]; intros σ σ'; [done|].
  cbn [mapM]. rewrite !bind_run. rewrite (parse_upload_state f σ σ').
  destruct (parse_upload f σ') as [σ1 [r|e]]; [|done]. cbn [snd].
  rewrite !bind_run. rewrite (IH σ σ1).
  by destruct (mapM parse_upload files σ1) as [σ2 [rs|e]].
Qed.

Lemma parse_uploads_run files σ : parse_uploads files σ = (σ, parsed files).
Proof. apply mapM_parse_upload. Qed.

Lemma parsed_length files resumes :
  parsed files = Ok resumes → length resumes = length files.
Proof.
  unfold parsed, parse_uploads. revert resumes.
  induction files as [|f files IH]; intros resumes.
  - by intros [= <-].
  - cbn [mapM]. rewrite bind_run.
    destruct (parse_upload f []) as [σ1 [r|e]]; [|done]. cbn [snd].
    rewrite bind_run, (mapM_parse_upload files σ1 []).
    destruct (mapM parse_upload files []) as [σ2 [rs|e]] eqn:E; [|done].
    cbn. intros [= <-]. cbn. f_equal. by apply IH.
Qed.

Lemma main_pressed files jd σ :
  files ≠ [] →
  main files jd true σ
  = match parsed files with
    | Ok resumes =>
        (ranking_results resumes jd;; resume_analysis resumes) (σ ++ opening)
    | Raise e => (σ ++ opening, Raise e)
    end.
Proof.
  intros H. destruct files as [|f files]; [done|].
  unfold main, opening.
  do 4 (rewrite bind_run; unfold emit at 1; cbn beta iota).
  rewrite bind_run, bind_run. unfold emit at 1. cbn beta iota.
  unfold mret at 1, M_ret at 1. cbn beta iota.
  rewrite bind_run. unfold emit at 1. cbn beta iota.
  rewrite bind_run, parse_uploads_run.
  rewrite <- !app_assoc. cbn [app]. by destruct (parsed (f :: files)).
Qed.

(** X12. A run with files uploaded and the button clicked, on an ASCII job
    description without two word characters in a row.  If the reader
    raises on the copy of an upload, its exception ends the run in the
    loop over the uploads.  Otherwise: if the description is blank, the
    ranking is skipped (so the ranking is never asked to rank against a
    blank description) and the run goes on to the section "Resume
    Analysis"; if it is not blank ("C", "R & D", "?"), the [ValueError]
    of the ranking ends the run, and neither the ranking nor the section
    "Resume Analysis" is shown, whatever the resumes are. *)
Theorem main_description_without_token
    (files : list UploadedFile) (jd : text) (σ : list st.call) :
  files ≠ [] → forallb is_ascii jd = true → has_word_pair jd = false →
  main files jd true σ
  = match parsed files with
    | Raise e => (σ ++ opening, Raise e)
    | Ok resumes =>
        match strip jd with
        | [] => resume_analysis resumes (σ ++ opening)
        | _ :: _ => (σ ++ opening, Raise (ValueError empty_vocabulary))
        end
    end.
Proof.
  intros Hf Ha Hp. rewrite main_pressed by done.
  destruct (parsed files) as [resumes|e]; [|done].
  destruct (strip jd) as [|c s] eqn:E.
  - unfold mbind at 1, M_bind at 1. by rewrite ranking_results_blank.
  - unfold mbind at 1, M_bind at 1. rewrite ranking_results_raise; [done| |].
    + by rewrite E.
    + by apply build_analyzer_ascii.
Qed.

(** X13. A run with files uploaded and the button clicked, on an ASCII job
    description with two word characters in a row.  If the reader raises
    on the copy of an upload, its exception ends the run in the loop over
    the uploads.  Otherwise the ranking succeeds, and the run shows the
    heading "Ranking Results", then one line per uploaded file, in the
    order of the ranking, numbered from 1 and made of the number, the name
    of the record and its formatted score, and then goes on to the section
    "Resume Analysis" with the records in the order of the upload. *)
Theorem main_ranking_lines
    (files : list UploadedFile) (jd : text) (σ : list st.call) :
  files ≠ [] → forallb is_ascii jd = true → has_word_pair jd = true →
  match parsed files with
  | Raise e => main files jd true σ = (σ ++ opening, Raise e)
  | Ok resumes =>
      ∃ ranked,
        (rank_resumes resumes jd []).2 = Ok ranked
        ∧ length ranked = length files
        ∧ main files jd true σ
          = resume_analysis resumes
              (σ ++ opening ++ st.subheader (codepoints "Ranking Results")
                 :: ((λ '(idx, (r, score)), st.markdown (ranking_line idx r score))
                       <$> enumerate 1 ranked))
  end.
Proof.
  intros Hf Ha Hp. rewrite main_pressed by done.
  destruct (parsed files) as [resumes|e] eqn:Hparsed; [|done].
  assert (build_analyzer jd ≠ []) as Hb.
  { intros H%build_analyzer_ascii; [congruence | done]. }
  eexists. split; [by rewrite rank_resumes_ok|]. split.
  - rewrite sorted_perm, length_zip, !length_fmap.
    rewrite (parsed_length _ _ Hparsed). lia.
  - unfold mbind at 1, M_bind at 1.
    rewrite ranking_results_ok; [|by apply has_word_pair_strip | done].
    by rewrite <- app_assoc.
Qed.

End MainFacts.

(** X12 at one uploaded resume and the job description "C++ / R". *)
Lemma main_description_without_token_witness :
  let files : list (UploadedFile (Libraries:=exact_libraries)) :=
    [(codepoints "cv.final.pdf", Some [codepoints "Python SQL"])] in
  let jd := codepoints "C++ / R" in
  files ≠ [] ∧ forallb is_ascii jd = true
  ∧ has_word_pair (R:=Exact.runtime) jd = false
  ∧ main (L:=exact_libraries) files jd true []
    = match parsed (L:=exact_libraries) files with
      | Raise e => ([] ++ opening, Raise e)
      | Ok resumes =>
          match strip jd with
          | [] => resume_analysis (L:=exact_libraries) resumes ([] ++ opening)
          | _ :: _ => ([] ++ opening, Raise (ValueError empty_vocabulary))
          end
      end.
Proof.
  intros files jd.
  assert (files ≠ []) as Hf by done.
  assert (forallb is_ascii jd = true) as Ha by reflexivity.
  assert (has_word_pair (R:=Exact.runtime) jd = false) as Hp by (vm_compute; reflexivity).
  split; [exact Hf|]. split; [exact Ha|]. split; [exact Hp|].
  exact (main_description_without_token (L:=exact_libraries) files jd [] Hf Ha Hp).
Defined.

(** A run on two uploads and the job description "Python developer": the
    second upload is ranked first. *)
Example main_two_uploads :
  let files : list (UploadedFile (Libraries:=exact_libraries)) :=
    [(codepoints "ann.pdf", Some [codepoints "Excel"; codepoints "PowerPoint"]);
     (codepoints "bob.v2.pdf", Some [codepoints "Python SQL"])] in
  main (L:=exact_libraries) files (codepoints "Python developer") true []
  = (opening
     ++ [st.subheader (codepoints "Ranking Results");
         st.markdown (codepoints "**1. bob.v2** (Score: 1/2)");
         st.markdown (codepoints "**2. ann** (Score: 0/1)");
         st.subheader (codepoints "Resume Analysis");
         st.markdown (codepoints "ann");
         st.markdown (codepoints "bob.v2")],
     Ok tt).
Proof. vm_compute. reflexivity. Qed.

(** A run in which the reader raises on the copy of the second of three
    uploads: nothing is ranked and nothing is shown of any of them. *)
Example main_unreadable_upload :
  let files : list (UploadedFile (Libraries:=exact_libraries)) :=
    [(codepoints "ann.pdf", Some [codepoints "Excel"; codepoints "PowerPoint"]);
     (codepoints "small.pdf", None);
     (codepoints "bob.v2.pdf", Some [codepoints "Python SQL"])] in
  main (L:=exact_libraries) files (codepoints "Python developer") true []
  = (opening, Raise (PdfError "PdfminerException")).
Proof. vm_compute. reflexivity. Qed.

(** X13 at the two uploads. *)
Lemma main_ranking_lines_witness :
  let files : list (UploadedFile (Libraries:=exact_libraries)) :=
    [(codepoints "ann.pdf", Some [codepoints "Excel"; codepoints "PowerPoint"]);
     (codepoints "bob.v2.pdf", Some [codepoints "Python SQL"])] in
  let jd := codepoints "Python developer" in
  files ≠ [] ∧ forallb is_ascii jd = true
  ∧ has_word_pair (R:=Exact.runtime) jd = true
  ∧ match parsed (L:=exact_libraries) files with
    | Raise e => main (L:=exact_libraries) files jd true [] = ([] ++ opening, Raise e)
    | Ok resumes =>
        ∃ ranked,
          (rank_resumes resumes jd []).2 = Ok ranked
          ∧ length ranked = length files
          ∧ main (L:=exact_libraries) files jd true []
            = resume_analysis (L:=exact_libraries) resumes
                ([] ++ opening ++ st.subheader (codepoints "Ranking Results")
                   :: ((λ '(idx, (r, score)),
                         st.markdown (ranking_line (L:=exact_libraries) idx r score))
                         <$> enumerate 1 ranked))
    end.
Proof.
  intros files jd.
  assert (files ≠ []) as Hf by done.
  assert (forallb is_ascii jd = true) as Ha by reflexivity.
  assert (has_word_pair (R:=Exact.runtime) jd = true) as Hp by (vm_compute; reflexivity).
  split; [exact Hf|]. split; [exact Ha|]. split; [exact Hp|].
  exact (main_ranking_lines (L:=exact_libraries) files jd [] Hf Ha Hp).
Defined.

(** ** The order of the resumes *)

Lemma sorted_unique_on {A} (Rel : A → A → Prop) (l1 : list A) : ∀ l2,
  (∀ x y, x ∈ l1 → y ∈ l1 → Rel x y → Rel y x → x = y) →
  StronglySorted Rel l1 → StronglySorted Rel l2 → l1 ≡ₚ l2 → l1 = l2.
Proof.
  induction l1 as [|x l1 IH]; intros l2 Hanti H1 H2 Hp.
  - by apply Permutation_nil_l in Hp.
  - destruct l2 as [|y l2]; [by apply Permutation_nil_r in Hp|].
    apply StronglySorted_cons in H1 as [Hx H1].
    apply StronglySorted_cons in H2 as [Hy H2].
    assert (x = y) as ->.
    { assert (x ∈ y :: l2) as Hxin by (rewrite <- Hp; left).
      assert (y ∈ x :: l1) as Hyin by (rewrite Hp; left).
      apply elem_of_cons in Hxin as [->|Hxin]; [done|].
      apply elem_of_cons in Hyin as [->|Hyin]; [done|].
      rewrite Forall_forall in Hx, Hy.
      apply Hanti; [left | by right | by apply Hx | by apply Hy]. }
    f_equal. apply IH; [|done|done|by apply Permutation_cons_inv in Hp].
    intros a b Ha Hb. apply Hanti; by right.
Qed.

Lemma zip_fmap_self {A B} (f : A → B) (l : list A) :
  zip l (f <$> l) = (λ x, (x, f x)) <$> l.
Proof. induction l as [|x l IH]; [done|]. cbn. by f_equal. Qed.

Section RankerOrder.

Context {R : Runtime}.

(** X14. The order in which the resumes are given matters only for ties:
    when [<] on the scores is a strict weak order and no two different
    resumes of the batch have tied scores, every reordering of the batch
    gets the same ranking (or the same failure). *)
Theorem rank_resumes_order_without_ties rs rs' jd σ :
  (∀ x y, float_lt x y = true → float_lt y x = false) →
  (∀ x y z, float_lt x z = true → float_lt x y = true ∨ float_lt y z = true) →
  rs ≡ₚ rs' →
  (∀ r r', r ∈ rs → r' ∈ rs →
           tied float_lt (resume_score jd r) (resume_score jd r') = true → r = r') →
  (rank_resumes rs jd σ).2 = (rank_resumes rs' jd σ).2.
Proof.
  intros Hasym Hneg Hp Hties.
  destruct (build_analyzer jd) as [|t ts] eqn:E.
  - by rewrite !rank_resumes_raise.
  - rewrite !rank_resumes_ok by (by rewrite E). cbn [snd]. f_equal.
    rewrite !zip_fmap_self.
    apply (sorted_unique_on (λ a b, float_lt a.2 b.2 = false)).
    + intros x y Hx Hy Hxy Hyx.
      rewrite sorted_perm in Hx, Hy.
      apply list_elem_of_fmap in Hx as (r & -> & Hr).
      apply list_elem_of_fmap in Hy as (r' & -> & Hr').
      cbn [snd] in Hxy, Hyx.
      rewrite (Hties r r'); [done|done|done|].
      unfold tied. by rewrite Hxy, Hyx.
    + by apply sorted_descending.
    + by apply sorted_descending.
    + rewrite !sorted_perm. by apply fmap_Permutation.
Qed.

End RankerOrder.

(** X14 at a batch of three resumes with three different scores, given in
    two orders. *)
Lemma rank_resumes_order_without_ties_witness :
  let jd := codepoints "Python SQL developer needed" in
  let r := Resume [] [] [] (codepoints "Python") None in
  let rs := [Exact.resume_a; Exact.resume_b; r] in
  let rs' := [r; Exact.resume_a; Exact.resume_b] in
  (∀ x y, Exact.lt x y = true → Exact.lt y x = false)
  ∧ (∀ x y z, Exact.lt x z = true → Exact.lt x y = true ∨ Exact.lt y z = true)
  ∧ rs ≡ₚ rs'
  ∧ (∀ r r', r ∈ rs → r' ∈ rs →
       tied Exact.lt (resume_score (R:=Exact.runtime) jd r)
         (resume_score (R:=Exact.runtime) jd r') = true → r = r')
  ∧ (Exact.rank_resumes rs jd []).2 = (Exact.rank_resumes rs' jd []).2.
Proof.
  intros jd r0 rs rs'.
  assert (rs ≡ₚ rs') as Hp.
  { symmetry. exact (Permutation_cons_append [Exact.resume_a; Exact.resume_b] r0). }
  assert (∀ r r', r ∈ rs → r' ∈ rs →
            tied Exact.lt (resume_score (R:=Exact.runtime) jd r)
              (resume_score (R:=Exact.runtime) jd r') = true → r = r') as Ht.
  { intros r r' Hr Hr' Htie. unfold rs in Hr, Hr'.
    rewrite !elem_of_cons, elem_of_nil in Hr, Hr'.
    destruct Hr as [->|[->|[->|[]]]], Hr' as [->|[->|[->|[]]]];
      first [reflexivity | (vm_compute in Htie; discriminate)]. }
  split; [exact exact_lt_asym|]. split; [exact exact_lt_negtrans|].
  split; [exact Hp|]. split; [exact Ht|].
  exact (rank_resumes_order_without_ties (R:=Exact.runtime) rs rs' jd []
           exact_lt_asym exact_lt_negtrans Hp Ht).
Defined.
